(** * asg-registry: the identifier lease engine, embedded and verified

    The service keeps one SQLite table,

      CREATE TABLE identifiers (id INTEGER PRIMARY KEY AUTOINCREMENT,
                                identifier TEXT NOT NULL UNIQUE,
                                locked_by TEXT, last_seen TIMESTAMP)

    and four pieces of code write to it: [allocateHandler],
    [livenessHandler], [releaseHandler] (handlers.go) and the ticker loop
    [releaseStaleIdentifiers] (db.go).  The table is embedded as the list of
    its rows in rowid order, every SQL statement as a function on that list,
    and every handler as a function from the request, the clock reading and
    the table to the HTTP response and the new table.

    Modelling choices, all of them about what lies below the Go code:
    - a nullable column is an [option]; SQL comparisons with NULL are false;
    - a timestamp is an instant in [Z]; [last_seen < ?] is the order of
      instants;
    - a statement without ORDER BY visits rows in rowid order, so
      [LIMIT 1] and [QueryRow] take the first matching row;
    - the database driver does not fail: the only [error] values are
      [sql.ErrNoRows] and the error [Scan] gives for a NULL read into a Go
      [string];
    - each handler runs alone (a sequential run of requests and ticks). *)

From Stdlib Require Import ZArith Lia Ascii DecimalString.
From stdpp Require Import base decidable option list strings.

(** ** The table *)

Record row := Row {
  identifier : string;
  locked_by : option string;
  last_seen : option Z
}.

Abbreviation table := (list row).

#[global] Instance row_eq_dec : EqDecision row.
Proof. solve_decision. Defined.

(** What [QueryRow(...).Scan(&dest)] hands back. *)
Inductive scanned (A : Type) :=
| Scanned (dest : A)
| ErrNoRows
| ErrScan.
Arguments Scanned {A} dest.
Arguments ErrNoRows {A}.
Arguments ErrScan {A}.

Module SQL.

(** [UPDATE identifiers SET ... WHERE ...]: every row the condition
    selects is rewritten, the others stay, order is kept. *)
Definition UPDATE (set : row → row) (cond : row → bool) (db : table) : table :=
  (λ r, if cond r then set r else r) <$> db.

(** [SELECT COUNT( * ) FROM identifiers WHERE ...] *)
Definition COUNT (cond : row → bool) (db : table) : nat :=
  length (List.filter cond db).

(** [result.RowsAffected()] of an [UPDATE ... WHERE ...]: the rows the
    condition selects. *)
Definition RowsAffected (cond : row → bool) (db : table) : nat :=
  COUNT cond db.

(** [SELECT ... WHERE ...] read through [QueryRow]: the first row. *)
Definition first_row (cond : row → bool) (db : table) : option row :=
  List.find cond db.

Definition set_lock (c : string) (now : Z) (r : row) : row :=
  Row (identifier r) (Some c) (Some now).

Definition set_last_seen (now : Z) (r : row) : row :=
  Row (identifier r) (locked_by r) (Some now).

Definition set_null (r : row) : row :=
  Row (identifier r) None None.

(** [locked_by = ?] *)
Definition locked_by_is (c : string) (r : row) : bool :=
  bool_decide (locked_by r = Some c).

(** [identifier = ?] *)
Definition identifier_is (v : string) (r : row) : bool :=
  bool_decide (identifier r = v).

(** [locked_by IS NULL] *)
Definition is_free (r : row) : bool :=
  bool_decide (locked_by r = None).

(** [last_seen < ? AND locked_by IS NOT NULL] *)
Definition is_stale (threshold : Z) (r : row) : bool :=
  match last_seen r with
  | Some t => (t <? threshold)%Z
  | None => false
  end && negb (is_free r).

End SQL.
Import SQL.

(** ** Store queries of the handlers *)

(** [SELECT identifier FROM identifiers WHERE locked_by = ?] scanned into a
    Go [string] (allocateHandler, step 1). *)
Definition find_by_holder (db : table) (c : string) : option string :=
  identifier <$> first_row (locked_by_is c) db.

(** [SELECT locked_by FROM identifiers WHERE identifier = ?]: the row that
    [livenessHandler] looks at. *)
Definition find_by_value (db : table) (v : string) : option row :=
  first_row (identifier_is v) db.

(** The same query scanned into [var dbClientID string]: database/sql
    refuses to convert NULL to a Go string, so a free identifier makes
    [Scan] fail with an error that is not [sql.ErrNoRows]. *)
Definition scan_locked_by (db : table) (v : string) : scanned string :=
  match find_by_value db v with
  | None => ErrNoRows
  | Some r =>
      match locked_by r with
      | Some h => Scanned h
      | None => ErrScan
      end
  end.

(** The sub-select [SELECT identifier FROM identifiers WHERE locked_by IS
    NULL LIMIT 1]. *)
Definition first_free (db : table) : option string :=
  identifier <$> first_row is_free db.

(** [identifier IN (SELECT ... LIMIT 1)] *)
Definition identifier_in (sub : option string) (r : row) : bool :=
  bool_decide (Some (identifier r) = sub).

(** ** HTTP side *)

Inductive payload :=
| NoBody
| AllocateResponse (Identifier : string)
| ReleasedBody.

Inductive response :=
| StatusOK (body : payload)
| StatusBadRequest (msg : string)
| StatusMethodNotAllowed
| StatusNotFound
| StatusConflict (expected_id your_id : string)
| StatusServiceUnavailable
| StatusInternalServerError.

Record AllocateRequest := { alloc_ClientID : string }.
Record LivenessRequest := { ClientID : string; ReqIdentifier : string }.

(** A request as the handler sees it: the method, and the JSON body decoded
    into the request struct ([None] when [Decode] returns an error; a field
    the JSON leaves out decodes to the empty string). *)
Record Request (A : Type) := { Method : string; Body : option A }.
Arguments Method {A} _.
Arguments Body {A} _.

Definition POST {A} (body : A) : Request A :=
  {| Method := "POST"; Body := Some body |}.

(** ** The lease operations

    [Allocate], [Renew] and [Release] are the bodies of the three handlers
    after the method check, the JSON decoding and the check for empty
    fields: handlers.go lines 55-101, 302-353 and 372-390. *)

(** Step 1 and step 2 of [allocateHandler]. *)
Definition Allocate (c : string) (now : Z) (db : table) : response * table :=
  match find_by_holder db c with
  | Some existingIdentifier =>
      (StatusOK (AllocateResponse existingIdentifier), db)
  | None =>
      let sub := first_free db in
      let db' := UPDATE (set_lock c now) (identifier_in sub) db in
      (* RETURNING identifier, first row scanned *)
      match identifier <$> first_row (identifier_in sub) db with
      | Some newIdentifier => (StatusOK (AllocateResponse newIdentifier), db')
      | None => (StatusServiceUnavailable, db')
      end
  end.

Definition allocateHandler (r : Request AllocateRequest) (now : Z) (db : table)
  : response * table :=
  if bool_decide (Method r ≠ "POST") then (StatusMethodNotAllowed, db) else
  match Body r with
  | None => (StatusBadRequest "Invalid JSON", db)
  | Some req =>
      if bool_decide (alloc_ClientID req = "")
      then (StatusBadRequest "client_id is required", db)
      else Allocate (alloc_ClientID req) now db
  end.

(** The query, the owner comparison and the update of [livenessHandler]. *)
Definition Renew (c v : string) (now : Z) (db : table) : response * table :=
  match scan_locked_by db v with
  | ErrNoRows => (StatusNotFound, db)
  | ErrScan => (StatusInternalServerError, db)
  | Scanned dbClientID =>
      if bool_decide (dbClientID ≠ c)
      then (StatusConflict dbClientID c, db)
      else (StatusOK NoBody,
            UPDATE (set_last_seen now)
                   (λ r, identifier_is v r && locked_by_is c r) db)
  end.

Definition livenessHandler (r : Request LivenessRequest) (now : Z) (db : table)
  : response * table :=
  if bool_decide (Method r ≠ "POST") then (StatusMethodNotAllowed, db) else
  match Body r with
  | None => (StatusBadRequest "Invalid JSON", db)
  | Some req =>
      if bool_decide (ClientID req = "") || bool_decide (ReqIdentifier req = "")
      then (StatusBadRequest "client_id and identifier are required", db)
      else Renew (ClientID req) (ReqIdentifier req) now db
  end.

(** The guarded update of [releaseHandler]. *)
Definition Release (c v : string) (db : table) : response * table :=
  (StatusOK ReleasedBody,
   UPDATE set_null (λ r, identifier_is v r && locked_by_is c r) db).

Definition releaseHandler (r : Request LivenessRequest) (db : table)
  : response * table :=
  if bool_decide (Method r ≠ "POST") then (StatusMethodNotAllowed, db) else
  match Body r with
  | None => (StatusBadRequest "Invalid JSON", db)
  | Some req => Release (ClientID req) (ReqIdentifier req) db
  end.

(** One tick of [releaseStaleIdentifiers]: the threshold, the batch update
    and its [RowsAffected]. *)
Definition ReclaimStale (now stale_timeout : Z) (db : table) : nat * table :=
  let threshold := (now - stale_timeout)%Z in
  (RowsAffected (is_stale threshold) db,
   UPDATE set_null (is_stale threshold) db).

(** The ticker loop, run over the clock readings of its ticks. *)
Fixpoint releaseStaleIdentifiers (ticks : list Z) (stale_timeout : Z) (db : table)
  : table :=
  match ticks with
  | [] => db
  | now :: ticks' =>
      releaseStaleIdentifiers ticks' stale_timeout
        (ReclaimStale now stale_timeout db).2
  end.

(** [INSERT OR IGNORE INTO identifiers (identifier) VALUES (?)] *)
Definition insert_or_ignore (db : table) (id : string) : table :=
  if bool_decide (id ∈ identifier <$> db) then db
  else db ++ [Row id None None].

(** The loop of [preloadIdentifiers] over the expanded identifiers. *)
Definition preload (ids : list string) (db : table) : table :=
  foldl insert_or_ignore db ids.

(** ** Runs

    Two notions of a run from the seeded table.  In the first the lease
    operations are applied directly, with any arguments; in the second the
    table changes only through what the running service does: an HTTP
    request to one of the three writing endpoints, or a tick of the
    sweeper. *)

Inductive operation :=
| OpAllocate (c : string) (now : Z)
| OpRenew (c v : string) (now : Z)
| OpRelease (c v : string)
| OpReclaimStale (now stale_timeout : Z).

Definition apply_op (o : operation) (db : table) : table :=
  match o with
  | OpAllocate c now => (Allocate c now db).2
  | OpRenew c v now => (Renew c v now db).2
  | OpRelease c v => (Release c v db).2
  | OpReclaimStale now stale_timeout => (ReclaimStale now stale_timeout db).2
  end.

Inductive reachable_by_ops : table → Prop :=
| by_ops_seed (ids : list string) : reachable_by_ops (preload ids [])
| by_ops_step (o : operation) (db : table) :
    reachable_by_ops db → reachable_by_ops (apply_op o db).

Inductive event :=
| AllocateReq (r : Request AllocateRequest) (now : Z)
| LivenessReq (r : Request LivenessRequest) (now : Z)
| ReleaseReq (r : Request LivenessRequest)
| SweepTick (now stale_timeout : Z).

Definition handle (e : event) (db : table) : table :=
  match e with
  | AllocateReq r now => (allocateHandler r now db).2
  | LivenessReq r now => (livenessHandler r now db).2
  | ReleaseReq r => (releaseHandler r db).2
  | SweepTick now stale_timeout => (ReclaimStale now stale_timeout db).2
  end.

Inductive reachable : table → Prop :=
| reachable_seed (ids : list string) : reachable (preload ids [])
| reachable_step (e : event) (db : table) :
    reachable db → reachable (handle e db).

(** ** Predicates on tables *)

(** The UNIQUE constraint on the [identifier] column. *)
Definition schema_unique (db : table) : Prop := NoDup (identifier <$> db).

(** A client holds at most one identifier: no two rows share a holder. *)
Definition holder_unique (db : table) : Prop :=
  ∀ (i j : nat) (ri rj : row) (h : string),
    db !! i = Some ri → db !! j = Some rj →
    locked_by ri = Some h → locked_by rj = Some h → i = j.

(** Holder and timestamp are present together or absent together. *)
Definition lease_consistent (db : table) : Prop :=
  ∀ r : row, r ∈ db → (locked_by r = None ↔ last_seen r = None).

(** No row is leased to the empty client id. *)
Definition no_empty_holder (db : table) : Prop :=
  ∀ r : row, r ∈ db → locked_by r ≠ Some "".

(** [c] holds the identifier [X]. *)
Definition holds (db : table) (c X : string) : Prop :=
  ∃ r : row, r ∈ db ∧ identifier r = X ∧ locked_by r = Some c.

(** The number of free identifiers: rows with no holder. *)
Definition free_count (db : table) : nat := COUNT is_free db.

(** A leased row whose renewal is strictly older than the threshold. *)
Definition expired (threshold : Z) (r : row) : Prop :=
  ∃ (h : string) (t : Z),
    locked_by r = Some h ∧ last_seen r = Some t ∧ (t < threshold)%Z.

#[global] Instance expired_dec threshold r : Decision (expired threshold r).
Proof.
  destruct (locked_by r) as [h|] eqn:Hh; cycle 1.
  { right. intros (h & t & ? & _). congruence. }
  destruct (last_seen r) as [t|] eqn:Ht; cycle 1.
  { right. intros (h' & t & _ & ? & _). congruence. }
  destruct (decide (t < threshold)%Z) as [Hlt|Hge].
  - left. by exists h, t.
  - right. intros (h' & t' & _ & ? & ?). simplify_eq. lia.
Defined.

(** No row without a holder: the pool is exhausted. *)
Definition no_free (db : table) : Prop :=
  Forall (λ r : row, locked_by r ≠ None) db.

#[global] Instance no_free_dec db : Decision (no_free db).
Proof. unfold no_free. apply _. Defined.

(** Every row as [preloadIdentifiers] inserts it: no holder, no timestamp. *)
Definition all_free (db : table) : Prop :=
  Forall (λ r : row, locked_by r = None ∧ last_seen r = None) db.

(** ** Pattern expansion (config.go)

    Go strings are byte strings, [int] is 64 bits wide.  [strings.Index],
    slicing, [strings.Split], [strconv.Atoi] and the [%d] verb are embedded
    for the arguments the code gives them: one-byte separators, and slices
    whose bounds the guards have put in range. *)

Definition maxInt : Z := 9223372036854775807.
Definition minInt : Z := (-9223372036854775808)%Z.

(** Position of the first byte [sep] of [s]. *)
Fixpoint find_byte (sep : ascii) (s : string) : option nat :=
  match s with
  | EmptyString => None
  | String a s' =>
      if bool_decide (a = sep) then Some 0 else S <$> find_byte sep s'
  end.

(** [strings.Index(s, sep)]: that position, or -1. *)
Definition Index (s : string) (sep : ascii) : Z :=
  from_option Z.of_nat (-1)%Z (find_byte sep s).

(** [s[lo:hi]] *)
Definition slice (s : string) (lo hi : Z) : string :=
  String.substring (Z.to_nat lo) (Z.to_nat (hi - lo)) s.

(** [len(s)] *)
Definition len (s : string) : Z := Z.of_nat (String.length s).

(** [strings.Split(s, sep)]: the pieces between the separators, one more
    than there are separators. *)
Fixpoint Split (s : string) (sep : ascii) : list string :=
  match s with
  | EmptyString => [EmptyString]
  | String a s' =>
      if bool_decide (a = sep) then EmptyString :: Split s' sep
      else match Split s' sep with
           | part :: parts => String a part :: parts
           | [] => [String a EmptyString]
           end
  end.

Definition digit_value (a : ascii) : option Z :=
  let n := Z.of_N (N_of_ascii a) in
  if (48 <=? n)%Z && (n <=? 57)%Z then Some (n - 48)%Z else None.

Fixpoint parse_digits (s : string) (acc : Z) : option Z :=
  match s with
  | EmptyString => Some acc
  | String a s' => d ← digit_value a; parse_digits s' (10 * acc + d)%Z
  end.

(** [strconv.Atoi]: an optional sign, one decimal digit or more, a value
    that fits [int]; [None] stands for a non-nil error. *)
Definition Atoi (s : string) : option Z :=
  match s with
  | EmptyString => None
  | String a rest =>
      let neg := bool_decide (a = "-"%char) in
      let digits := if neg || bool_decide (a = "+"%char) then rest else s in
      match digits with
      | EmptyString => None
      | _ =>
          n ← parse_digits digits 0;
          let v := if neg then (- n)%Z else n in
          if (minInt <=? v)%Z && (v <=? maxInt)%Z then Some v else None
      end
  end.

(** The [%d] verb of [fmt.Sprintf]. *)
Definition fmt_d (i : Z) : string := NilZero.string_of_int (Z.to_int i).

(** How a call ends: it returns, or it loops for ever; [OutOfFuel] is the
    embedding's own third case, and [expandPattern] never ends in it. *)
Inductive outcome :=
| Returns (ids : list string)
| Diverges
| OutOfFuel.

(** [for i := ...; i <= endNum; i++ { expanded = append(expanded, ...) }]
    with [n] iterations left. *)
Fixpoint for_range (n : nat) (i : Z) (body : Z → outcome)
    (expanded : list string) : outcome :=
  match n with
  | O => Returns expanded
  | S n' =>
      match body i with
      | Returns ids => for_range n' (i + 1)%Z body (expanded ++ ids)
      | other => other
      end
  end.

(** [expandPattern].  The recursive call is on the suffix, a shorter string:
    [fuel] bounds the depth.  [i++] wraps round at [maxInt], so a loop whose
    upper bound is [maxInt] never sees [i <= endNum] fail. *)
Fixpoint expandPattern_fuel (fuel : nat) (pattern : string) : outcome :=
  match fuel with
  | O => OutOfFuel
  | S fuel' =>
      let start := Index pattern "["%char in
      let end_ := Index pattern "]"%char in
      if (start =? -1)%Z || (end_ =? -1)%Z || (start >? end_)%Z
      then Returns [pattern] else
      let prefix := slice pattern 0 start in
      let rangePart := slice pattern (start + 1) end_ in
      let suffix := slice pattern (end_ + 1) (len pattern) in
      match Split rangePart "-"%char with
      | [lo; hi] =>
          match Atoi lo, Atoi hi with
          | Some startNum, Some endNum =>
              if (startNum >? endNum)%Z then Returns [pattern] else
              if (endNum =? maxInt)%Z then Diverges else
              for_range (Z.to_nat (endNum - startNum + 1)) startNum
                (λ i,
                   match expandPattern_fuel fuel' suffix with
                   | Returns expandedSuffixes =>
                       Returns ((λ expSuffix, prefix +:+ fmt_d i +:+ expSuffix)
                                  <$> expandedSuffixes)
                   | other => other
                   end)
                []
          | _, _ => Returns [pattern]
          end
      | _ => Returns [pattern]
      end
  end.

Definition expandPattern (pattern : string) : outcome :=
  expandPattern_fuel (S (String.length pattern)) pattern.

(** [ExpandIdentifiers]: the expansions of the patterns, in order. *)
Fixpoint ExpandIdentifiers_from (identifiers : list string)
    (patterns : list string) : outcome :=
  match patterns with
  | [] => Returns identifiers
  | pattern :: patterns' =>
      match expandPattern pattern with
      | Returns ids => ExpandIdentifiers_from (identifiers ++ ids) patterns'
      | other => other
      end
  end.

Definition ExpandIdentifiers (patterns : list string) : outcome :=
  ExpandIdentifiers_from [] patterns.

(** [preloadIdentifiers]: [None] when the expansion never returns. *)
Definition preloadIdentifiers (patterns : list string) (db : table)
  : option table :=
  match ExpandIdentifiers patterns with
  | Returns expandedIdentifiers => Some (preload expandedIdentifiers db)
  | _ => None
  end.

(** *** Well-formed ranges, in the words of the specification *)

Fixpoint has_byte (a : ascii) (s : string) : bool :=
  match s with
  | EmptyString => false
  | String b s' => bool_decide (b = a) || has_byte a s'
  end.

(** [seg] is the first bracketed segment of [pattern]: the text between the
    first "[" and the first "]", the "[" coming first. *)
Definition bracketed (pattern seg : string) : Prop :=
  ∃ prefix suffix : string,
    pattern = prefix +:+ String "["%char (seg +:+ String "]"%char suffix) ∧
    has_byte "["%char prefix = false ∧
    has_byte "]"%char prefix = false ∧
    has_byte "]"%char seg = false.

(** [seg] reads "a-b": two numerals around a single "-". *)
Definition numeric_range (seg : string) (a b : Z) : Prop :=
  ∃ sa sb : string,
    seg = sa +:+ String "-"%char sb ∧
    has_byte "-"%char sa = false ∧ has_byte "-"%char sb = false ∧
    Atoi sa = Some a ∧ Atoi sb = Some b.

Definition well_formed_range (pattern : string) : Prop :=
  ∃ (seg : string) (a b : Z),
    bracketed pattern seg ∧ numeric_range seg a b ∧ (a ≤ b)%Z.

(** The guards of [expandPattern] read as one function: the bounds of the
    first range when every guard lets the pattern through. *)
Definition first_range (pattern : string) : option (Z * Z) :=
  let start := Index pattern "["%char in
  let end_ := Index pattern "]"%char in
  if (start =? -1)%Z || (end_ =? -1)%Z || (start >? end_)%Z then None else
  match Split (slice pattern (start + 1) end_) "-"%char with
  | [lo; hi] =>
      match Atoi lo, Atoi hi with
      | Some startNum, Some endNum =>
          if (startNum >? endNum)%Z then None else Some (startNum, endNum)
      | _, _ => None
      end
  | _ => None
  end.

(** ** A table for the worked runs: one lease, one free slot *)

Definition two_slots : table :=
  [Row "id-1" (Some "vm-a") (Some 0%Z); Row "id-2" None None].


(** ** The read-only endpoints (handlers.go)

    The five handlers that only read the table.  A timestamp column read
    back through the driver is the instant that was stored, and its
    RFC 3339 text parses back to that instant, so the handlers' [time.Parse]
    succeeds on every timestamp that scans; what can fail is the scan of a
    NULL into a Go [string]. *)

(** What a reading handler sends: 200 with a JSON body, or an error status. *)
Inductive answer (A : Type) :=
| Encoded (body : A)
| Failed (status : response).
Arguments Encoded {A} body.
Arguments Failed {A} status.

(** [json.NewEncoder(w).Encode(s)] for a slice: a nil slice is written as
    [null]; the handlers' slices are nil until the first [append]. *)
Inductive json_slice (A : Type) :=
| JsonNull
| JsonArray (items : list A).
Arguments JsonNull {A}.
Arguments JsonArray {A} items.

Definition encode_slice {A} (s : list A) : json_slice A :=
  match s with
  | [] => JsonNull
  | _ => JsonArray s
  end.

(** The entries that were appended, whichever way they were written. *)
Definition items_of {A} (j : json_slice A) : list A :=
  match j with
  | JsonNull => []
  | JsonArray l => l
  end.

Record AllocatedMapping := {
  am_Identifier : string;
  am_LockedBy : string;
  am_LastSeen : Z
}.

(** [locked_by IS NOT NULL] *)
Definition is_locked (r : row) : bool := negb (is_free r).

(** [rows.Scan(&mapping.Identifier, &mapping.LockedBy, &lastSeen)], three Go
    strings: [None] is a scan error, after which the loop goes on to the
    next row. *)
Definition scan_mapping (r : row) : option AllocatedMapping :=
  match locked_by r, last_seen r with
  | Some h, Some t =>
      Some {| am_Identifier := identifier r; am_LockedBy := h;
              am_LastSeen := t |}
  | _, _ => None
  end.

Definition allocatedHandler (method : string) (db : table)
  : answer (json_slice AllocatedMapping) :=
  if bool_decide (method ≠ "GET") then Failed StatusMethodNotAllowed else
  Encoded (encode_slice (omap scan_mapping (List.filter is_locked db))).

(** The [map[string]string] of the two detail handlers. *)
Record Details := {
  d_client_id : string;
  d_identifier : string;
  d_last_seen : Z
}.

(** [clientID] is [r.PathValue("client_id")]. *)
Definition clientDetailsHandler (clientID : string) (db : table)
  : answer Details :=
  if bool_decide (clientID = "")
  then Failed (StatusBadRequest "Client ID is required") else
  match first_row (locked_by_is clientID) db with
  | None => Failed StatusNotFound
  | Some r =>
      match last_seen r with
      | Some lastSeen =>
          Encoded {| d_client_id := clientID; d_identifier := identifier r;
                     d_last_seen := lastSeen |}
      | None => Failed StatusInternalServerError
      end
  end.

(** [v] is [r.PathValue("identifier")]; both columns are scanned into Go
    strings. *)
Definition identifierDetailsHandler (v : string) (db : table)
  : answer Details :=
  if bool_decide (v = "")
  then Failed (StatusBadRequest "Identifier is required") else
  match find_by_value db v with
  | None => Failed StatusNotFound
  | Some r =>
      match locked_by r, last_seen r with
      | Some clientID, Some lastSeen =>
          Encoded {| d_client_id := clientID; d_identifier := v;
                     d_last_seen := lastSeen |}
      | _, _ => Failed StatusInternalServerError
      end
  end.

(** The [Identifier] struct of handlers.go. *)
Record IdentifierStatus := {
  is_Identifier : string;
  is_LockedBy : option string;
  is_LastSeen : option Z;
  is_Allocated : bool
}.

(** The loop body of [identifiersHandler]: both nullable columns go through
    [sql.NullString], so no row fails to scan. *)
Definition status_of_row (r : row) : IdentifierStatus :=
  {| is_Identifier := identifier r;
     is_LockedBy := locked_by r;
     is_LastSeen := last_seen r;
     is_Allocated := bool_decide (is_Some (locked_by r)) |}.

Definition identifiersHandler (method : string) (db : table)
  : answer (json_slice IdentifierStatus) :=
  if bool_decide (method ≠ "GET") then Failed StatusMethodNotAllowed else
  Encoded (encode_slice (status_of_row <$> db)).

(** The [map[string]int] of [statsHandler]; Go [int]s. *)
Record Stats := {
  total_identifiers : Z;
  allocated_identifiers : Z;
  available_identifiers : Z;
  stale_identifiers : Z
}.

(** [last_seen < ?] *)
Definition last_seen_before (threshold : Z) (r : row) : bool :=
  match last_seen r with
  | Some t => (t <? threshold)%Z
  | None => false
  end.

Definition statsHandler (now stale_timeout : Z) (db : table) : Stats :=
  let total := Z.of_nat (COUNT (λ _, true) db) in
  let allocated := Z.of_nat (COUNT is_locked db) in
  let stale :=
    Z.of_nat (COUNT (last_seen_before (now - stale_timeout)%Z) db) in
  {| total_identifiers := total;
     allocated_identifiers := allocated;
     available_identifiers := (total - allocated)%Z;
     stale_identifiers := stale |}.

(** ** Start-up (db.go, main.go) *)

(** [initDB]: [CREATE TABLE IF NOT EXISTS] keeps the table the database file
    already has ([Some]), and makes an empty one otherwise. *)
Definition initDB (stored : option table) : table := default [] stored.

(** [main] up to the start of the server: the schema, then the preload. *)
Definition startup (patterns : list string) (stored : option table)
  : option table :=
  preloadIdentifiers patterns (initDB stored).

(** The table after a list of events, oldest first. *)
Definition run (events : list event) (db : table) : table :=
  foldl (λ d e, handle e d) db events.

(** The latest of the sweeper's clock readings. *)
Definition latest (now : Z) (ticks : list Z) : Z := foldr Z.max now ticks.

(** ** Expansion of one range, as a list *)

(** The integers from [i], [n] of them. *)
Fixpoint Zseq (i : Z) (n : nat) : list Z :=
  match n with
  | O => []
  | S n' => i :: Zseq (i + 1)%Z n'
  end.

(** The identifiers one range contributes: for each number in turn, the
    prefix, the number in decimal and each expansion of the suffix. *)
Definition range_identifiers (prefix : string) (a b : Z)
    (expandedSuffixes : list string) : list string :=
  i ← Zseq a (Z.to_nat (b - a + 1));
  (λ expSuffix, prefix +:+ fmt_d i +:+ expSuffix) <$> expandedSuffixes.

(** ** The simulated client (client/main.go)

    [registerClient] and [sendLiveness] change the client's own table of
    simulated clients according to the answer of the server.  The answer is
    an input here: [None] when [http.Post] returns an error, the response
    otherwise.  The random choices and the ticker of [simulateClients] are
    not embedded. *)

From stdpp Require Import gmap.

(** [resp.StatusCode] *)
Definition StatusCode (r : response) : Z :=
  match r with
  | StatusOK _ => 200
  | StatusBadRequest _ => 400
  | StatusMethodNotAllowed => 405
  | StatusNotFound => 404
  | StatusConflict _ _ => 409
  | StatusServiceUnavailable => 503
  | StatusInternalServerError => 500
  end%Z.

(** [json.NewDecoder(resp.Body).Decode(&res)] into an [AllocateResponse],
    the error dropped: a body without an [identifier] leaves it empty. *)
Definition decoded_Identifier (r : response) : string :=
  match r with
  | StatusOK (AllocateResponse X) => X
  | _ => ""
  end.

Record Client := {
  c_ID : string;
  c_Identifier : string;
  c_LastSeen : Z
}.

(** [time.Second * 10], in nanoseconds as a [time.Duration]. *)
Definition LivenessInterval : Z := 10 * 1000000000.

(** [clientID] is the fresh UUID, [now] the client's clock. *)
Definition registerClient (clientID : string) (now : Z)
    (resp : option response) (clients : gmap string Client)
  : gmap string Client :=
  match resp with
  | None => clients
  | Some r =>
      if bool_decide (StatusCode r ≠ 200%Z) then clients else
      <[clientID := {| c_ID := clientID;
                       c_Identifier := decoded_Identifier r;
                       c_LastSeen := (now - LivenessInterval)%Z |}]> clients
  end.

(** [client] points into the table, under the key [client.ID]. *)
Definition sendLiveness (client : Client) (now : Z)
    (resp : option response) (clients : gmap string Client)
  : gmap string Client :=
  match resp with
  | None => clients
  | Some r =>
      if bool_decide (StatusCode r ≠ 200%Z) then delete (c_ID client) clients
      else <[c_ID client := {| c_ID := c_ID client;
                               c_Identifier := c_Identifier client;
                               c_LastSeen := now |}]> clients
  end.

(** The request [sendLiveness] posts to [/liveness]. *)
Definition liveness_request (client : Client) : Request LivenessRequest :=
  POST {| ClientID := c_ID client; ReqIdentifier := c_Identifier client |}.

(** ** The range loop of [expandPattern], with its counter

    [for i := startNum; i <= endNum; i++ { expanded = append(expanded, ...) }]
    on a 64-bit [int]: [i++] wraps round from [maxInt] to [minInt].  [body]
    gives the identifiers one pass appends. *)

(** The value of a Go [int] expression whose mathematical value is [z]. *)
Definition wrap_int (z : Z) : Z := ((z - minInt) mod 2 ^ 64 + minInt)%Z.

Record loop_state := {
  loop_i : Z;
  loop_expanded : list string
}.

(** The test [i <= endNum] and, when it holds, one pass: the appends, then
    [i++].  [None] when the test fails and the loop is left. *)
Definition loop_pass (endNum : Z) (body : Z → list string) (s : loop_state)
  : option loop_state :=
  if (loop_i s <=? endNum)%Z
  then Some {| loop_i := wrap_int (loop_i s + 1);
               loop_expanded := loop_expanded s ++ body (loop_i s) |}
  else None.

(** The state after [n] passes; [None] when the loop is left before. *)
Fixpoint loop_passes (n : nat) (endNum : Z) (body : Z → list string)
    (s : loop_state) : option loop_state :=
  match n with
  | O => Some s
  | S n' => s' ← loop_pass endNum body s; loop_passes n' endNum body s'
  end.
(** ** Facts about the SQL layer *)

Section sql_facts.
Implicit Types (db : table) (r : row) (cond : row → bool) (set : row → row).

Lemma UPDATE_lookup set cond db (i : nat) :
  UPDATE set cond db !! i = (λ r, if cond r then set r else r) <$> db !! i.
Proof. unfold UPDATE. apply list_lookup_fmap. Qed.

Lemma UPDATE_length set cond db : length (UPDATE set cond db) = length db.
Proof. unfold UPDATE. apply length_fmap. Qed.

Lemma UPDATE_app set cond db1 db2 :
  UPDATE set cond (db1 ++ db2) = UPDATE set cond db1 ++ UPDATE set cond db2.
Proof. unfold UPDATE. apply fmap_app. Qed.

Lemma UPDATE_untouched set cond db :
  (∀ r, r ∈ db → cond r = false) → UPDATE set cond db = db.
Proof.
  induction db as [|r db IH]; intros Hno; [done|].
  unfold UPDATE in *. cbn.
  rewrite (Hno r) by left. f_equal. apply IH.
  intros r' Hr'. apply Hno. by right.
Qed.

Lemma UPDATE_identifiers set cond db :
  (∀ r, identifier (set r) = identifier r) →
  identifier <$> UPDATE set cond db = identifier <$> db.
Proof.
  intros Hset. unfold UPDATE. rewrite <- list_fmap_compose.
  apply list_fmap_ext. intros _ r _. cbn. by destruct (cond r).
Qed.

Lemma elem_of_UPDATE set cond db r' :
  r' ∈ UPDATE set cond db ↔
  ∃ r, r ∈ db ∧ r' = (if cond r then set r else r).
Proof.
  unfold UPDATE. rewrite list_elem_of_fmap. split.
  - intros (r & -> & Hr). by exists r.
  - intros (r & Hr & ->). by exists r.
Qed.

Lemma first_row_Some cond db r :
  first_row cond db = Some r →
  ∃ l1 l2, db = l1 ++ r :: l2 ∧ cond r = true ∧ ∀ r', r' ∈ l1 → cond r' = false.
Proof.
  unfold first_row. induction db as [|r0 db IH]; [done|]. cbn.
  destruct (cond r0) eqn:Hc.
  - intros [= <-]. exists [], db. split_and!; [done..|].
    intros r' Hr'. by apply elem_of_nil in Hr'.
  - intros (l1 & l2 & -> & Hr & Hl1)%IH. exists (r0 :: l1), l2.
    split_and!; [done..|]. intros r' Hr'.
    apply elem_of_cons in Hr' as [->|Hr']; auto.
Qed.

Lemma first_row_None cond db :
  first_row cond db = None ↔ ∀ r, r ∈ db → cond r = false.
Proof.
  unfold first_row. induction db as [|r0 db IH]; cbn.
  - split; [|done]. intros _ r Hr. by apply elem_of_nil in Hr.
  - destruct (cond r0) eqn:Hc.
    + split; [done|]. intros H. specialize (H r0). rewrite Hc in H.
      discriminate H. by left.
    + rewrite IH. split.
      * intros H r Hr. apply elem_of_cons in Hr as [->|Hr]; auto.
      * intros H r Hr. apply H. by right.
Qed.

Lemma first_row_is_Some cond db r :
  r ∈ db → cond r = true → is_Some (first_row cond db).
Proof.
  intros Hin Hc. destruct (first_row cond db) eqn:E; [by eexists|].
  rewrite first_row_None in E. specialize (E r Hin). congruence.
Qed.

(** Under the UNIQUE constraint a row is found by its identifier. *)
Lemma schema_unique_split db l1 r l2 r' :
  schema_unique db → db = l1 ++ r :: l2 → r' ∈ db →
  identifier r' = identifier r → r' = r ∧ (r' ∉ l1) ∧ (r' ∉ l2).
Proof.
  unfold schema_unique. intros Hnd -> Hin Hid.
  rewrite fmap_app, fmap_cons in Hnd.
  apply NoDup_app in Hnd as (_ & Hl1 & Hnd).
  apply NoDup_cons in Hnd as [Hr Hl2].
  assert (Hnot1 : ∀ x, x ∈ l1 → identifier x ≠ identifier r).
  { intros x Hx Heq. apply (Hl1 (identifier x)).
    - apply list_elem_of_fmap. eauto.
    - rewrite Heq. left. }
  assert (Hnot2 : ∀ x, x ∈ l2 → identifier x ≠ identifier r).
  { intros x Hx Heq. apply Hr. rewrite <- Heq.
    apply list_elem_of_fmap. eauto. }
  apply elem_of_app in Hin as [Hin|[->|Hin]%elem_of_cons].
  - by destruct (Hnot1 _ Hin).
  - split_and!; [done| |]; intros Hx; [by eapply Hnot1|by eapply Hnot2].
  - by destruct (Hnot2 _ Hin).
Qed.

Lemma RowsAffected_filter cond db (P : row → Prop) `{!∀ r, Decision (P r)} :
  (∀ r, cond r = true ↔ P r) →
  RowsAffected cond db = length (filter P db).
Proof.
  intros Hspec. unfold RowsAffected, COUNT.
  induction db as [|r db IH]; [done|].
  rewrite filter_cons. cbn [List.filter]. destruct (cond r) eqn:Hc.
  - rewrite decide_True by (by apply Hspec). cbn. by rewrite IH.
  - rewrite decide_False; [done|]. rewrite <- Hspec. congruence.
Qed.

End sql_facts.

Lemma is_stale_expired threshold r :
  is_stale threshold r = true ↔ expired threshold r.
Proof.
  unfold is_stale, is_free, expired.
  destruct (last_seen r) as [t|], (locked_by r) as [h|]; cbn;
    rewrite ?andb_true_r, ?andb_false_r.
  - rewrite Z.ltb_lt. split; [intros; by exists h, t|].
    intros (h' & t' & _ & ? & ?). by simplify_eq.
  - split; [done|]. intros (h' & t' & ? & _). done.
  - split; [done|]. intros (h' & t' & _ & ? & _). done.
  - split; [done|]. intros (h' & t' & ? & _). done.
Qed.

(** ** The handlers on well-formed requests *)

Lemma allocateHandler_POST c now db :
  c ≠ "" →
  allocateHandler (POST {| alloc_ClientID := c |}) now db = Allocate c now db.
Proof.
  intros Hc. unfold allocateHandler, POST. cbn.
  repeat case_bool_decide; done.
Qed.

Lemma allocateHandler_empty now db :
  allocateHandler (POST {| alloc_ClientID := "" |}) now db
  = (StatusBadRequest "client_id is required", db).
Proof. reflexivity. Qed.

Lemma livenessHandler_POST c v now db :
  c ≠ "" → v ≠ "" →
  livenessHandler (POST {| ClientID := c; ReqIdentifier := v |}) now db
  = Renew c v now db.
Proof.
  intros Hc Hv. unfold livenessHandler, POST. cbn.
  repeat case_bool_decide; done.
Qed.

Lemma livenessHandler_empty v now db :
  livenessHandler (POST {| ClientID := ""; ReqIdentifier := v |}) now db
  = (StatusBadRequest "client_id and identifier are required", db).
Proof. reflexivity. Qed.

Lemma releaseHandler_POST c v db :
  releaseHandler (POST {| ClientID := c; ReqIdentifier := v |}) db
  = Release c v db.
Proof. reflexivity. Qed.

(** A handler that answers anything but 200 leaves the table alone. *)
Lemma allocateHandler_unchanged r now db :
  (∀ X, (allocateHandler r now db).1 ≠ StatusOK (AllocateResponse X)) →
  (allocateHandler r now db).2 = db.
Proof.
  unfold allocateHandler. case_bool_decide; [done|].
  destruct (Body r) as [req|]; [|done]. case_bool_decide; [done|].
  unfold Allocate. destruct (find_by_holder db _); [done|].
  destruct (first_row (identifier_in _) db) as [r0|] eqn:E; cbn.
  - intros Hne. by destruct (Hne (identifier r0)).
  - intros _. apply UPDATE_untouched. by apply first_row_None.
Qed.

(** ** Holding an identifier, through the queries *)

Lemma find_by_holder_holds db c X :
  find_by_holder db c = Some X → holds db c X.
Proof.
  unfold find_by_holder. destruct (first_row _ db) as [r|] eqn:E; [|done].
  intros [= <-]. apply first_row_Some in E as (l1 & l2 & -> & Hc & _).
  exists r. split_and!; [|done|].
  - apply elem_of_app. right. left.
  - unfold locked_by_is in Hc. by apply bool_decide_eq_true in Hc.
Qed.

Lemma find_by_holder_None db c :
  find_by_holder db c = None ↔ ∀ X, ¬ holds db c X.
Proof.
  unfold find_by_holder. rewrite fmap_None, first_row_None. split.
  - intros Hno X (r & Hr & _ & Hl). specialize (Hno r Hr).
    unfold locked_by_is in Hno. by apply bool_decide_eq_false in Hno.
  - intros Hno r Hr. unfold locked_by_is. apply bool_decide_eq_false.
    intros Hl. apply (Hno (identifier r)). by exists r.
Qed.

Lemma holder_unique_find db c X :
  holder_unique db → holds db c X → find_by_holder db c = Some X.
Proof.
  intros Hu (r & Hr & <- & Hl). unfold find_by_holder.
  destruct (first_row _ db) as [r0|] eqn:E; cycle 1.
  { rewrite first_row_None in E. specialize (E r Hr).
    unfold locked_by_is in E. by apply bool_decide_eq_false in E. }
  cbn. f_equal. f_equal.
  apply first_row_Some in E as (l1 & l2 & -> & Hc & _).
  unfold locked_by_is in Hc. apply bool_decide_eq_true in Hc.
  apply list_elem_of_lookup in Hr as [i Hi].
  assert (Hj : (l1 ++ r0 :: l2) !! length l1 = Some r0).
  { by rewrite list_lookup_middle. }
  assert (i = length l1) as -> by eauto using Hu.
  congruence.
Qed.


Lemma first_free_None db : first_free db = None ↔ no_free db.
Proof.
  unfold first_free, no_free. rewrite fmap_None, first_row_None, Forall_forall.
  unfold is_free. split; intros H r Hr; specialize (H r Hr).
  - by apply bool_decide_eq_false in H.
  - by apply bool_decide_eq_false.
Qed.


(** Under the UNIQUE constraint, an update keyed on one identifier rewrites
    the one row that carries it. *)
Lemma UPDATE_unique set cond (l1 l2 : table) (r : row) :
  schema_unique (l1 ++ r :: l2) →
  (∀ r', cond r' = true → identifier r' = identifier r) →
  UPDATE set cond (l1 ++ r :: l2) = l1 ++ (if cond r then set r else r) :: l2.
Proof.
  intros Hu Hcond.
  assert (Hout : ∀ r', r' ∈ l1 ∨ r' ∈ l2 → cond r' = false).
  { intros r' Hr'. destruct (cond r') eqn:Hc; [|done]. exfalso.
    destruct (schema_unique_split _ l1 r l2 r' Hu eq_refl) as (_ & Hn1 & Hn2).
    - rewrite elem_of_app, elem_of_cons. tauto.
    - by apply Hcond.
    - tauto. }
  rewrite UPDATE_app. unfold UPDATE at 2. rewrite fmap_cons.
  fold (UPDATE set cond l2).
  rewrite !UPDATE_untouched; [done|intros; apply Hout; tauto..].
Qed.

Lemma first_row_app_r cond (l1 l2 : table) :
  (∀ r, r ∈ l1 → cond r = false) →
  first_row cond (l1 ++ l2) = first_row cond l2.
Proof.
  unfold first_row. induction l1 as [|r l1 IH]; intros Hl1; [done|]. cbn.
  rewrite (Hl1 r) by left. apply IH. intros r' Hr'. apply Hl1. by right.
Qed.

(** ** Allocation *)

Lemma Allocate_held db c X now :
  find_by_holder db c = Some X →
  Allocate c now db = (StatusOK (AllocateResponse X), db).
Proof. intros Hheld. unfold Allocate. by rewrite Hheld. Qed.

Lemma Allocate_exhausted db c now :
  find_by_holder db c = None → no_free db →
  Allocate c now db = (StatusServiceUnavailable, db).
Proof.
  intros Hnone Hnf. apply first_free_None in Hnf. unfold Allocate.
  rewrite Hnone, Hnf. cbn.
  assert (Hno : ∀ r, r ∈ db → identifier_in None r = false) by done.
  rewrite (proj2 (first_row_None _ _) Hno). cbn.
  by rewrite UPDATE_untouched.
Qed.

Lemma Allocate_claims_first_free db c now :
  schema_unique db → find_by_holder db c = None → ¬ no_free db →
  ∃ (l1 l2 : table) (r : row),
    db = l1 ++ r :: l2 ∧ locked_by r = None ∧ no_free l1 ∧
    Allocate c now db
    = (StatusOK (AllocateResponse (identifier r)),
       l1 ++ Row (identifier r) (Some c) (Some now) :: l2).
Proof.
  intros Hu Hnone Hnf.
  rewrite <- first_free_None in Hnf. unfold first_free in Hnf.
  destruct (first_row is_free db) as [r|] eqn:Efree; [clear Hnf|done].
  apply first_row_Some in Efree as (l1 & l2 & Hdb & Hr & Hl1).
  unfold is_free in Hr. apply bool_decide_eq_true in Hr.
  exists l1, l2, r. split_and!; [done..| |].
  { apply Forall_forall. intros r' Hr'. specialize (Hl1 r' Hr').
    unfold is_free in Hl1. by apply bool_decide_eq_false in Hl1. }
  assert (Efirst : first_free db = Some (identifier r)).
  { unfold first_free. subst db. rewrite (first_row_app_r _ _ _ Hl1).
    unfold first_row. cbn. unfold is_free at 1.
    by rewrite bool_decide_eq_true_2. }
  assert (Hsel : ∀ r', identifier_in (Some (identifier r)) r' = true →
                       identifier r' = identifier r).
  { intros r' Hr'. unfold identifier_in in Hr'.
    apply bool_decide_eq_true in Hr'. congruence. }
  assert (Hself : identifier_in (Some (identifier r)) r = true).
  { unfold identifier_in. by apply bool_decide_eq_true. }
  unfold Allocate. rewrite Hnone, Efirst. cbn.
  destruct (first_row _ db) as [r'|] eqn:Eret; cycle 1.
  { rewrite first_row_None in Eret. rewrite Eret in Hself; [done|].
    subst db. apply elem_of_app. right. left. }
  apply first_row_Some in Eret as (k1 & k2 & Hdb' & Hr' & _).
  assert (r' = r) as ->.
  { eapply (schema_unique_split db l1 r l2 r' Hu Hdb); [|by apply Hsel].
    rewrite Hdb'. apply elem_of_app. right. left. }
  cbn. f_equal. subst db.
  rewrite (UPDATE_unique _ _ l1 l2 r Hu Hsel). by rewrite Hself.
Qed.

(** C8. For a client that holds nothing, Allocate answers 503 (pool
    exhausted) exactly when no row is free, and then the table is unchanged;
    when some row is free, the first free row, and only that row, becomes
    leased to the client with the current time, and its identifier is the
    answer. *)
Theorem Allocate_fresh (db : table) (c : string) (now : Z) :
  schema_unique db →
  (∀ X, ¬ holds db c X) →
  ((Allocate c now db).1 = StatusServiceUnavailable ↔ no_free db) ∧
  (no_free db → Allocate c now db = (StatusServiceUnavailable, db)) ∧
  (¬ no_free db →
   ∃ (l1 l2 : table) (r : row),
     db = l1 ++ r :: l2 ∧ locked_by r = None ∧ no_free l1 ∧
     Allocate c now db
     = (StatusOK (AllocateResponse (identifier r)),
        l1 ++ Row (identifier r) (Some c) (Some now) :: l2)) ∧
  (c ≠ "" →
   allocateHandler (POST {| alloc_ClientID := c |}) now db = Allocate c now db).
Proof.
  intros Hu Hnone. apply find_by_holder_None in Hnone.
  split_and!;
    [|by apply Allocate_exhausted
     |by apply Allocate_claims_first_free
     |apply allocateHandler_POST].
  split.
  - intros Hresp. destruct (decide (no_free db)) as [|Hnf]; [done|].
    destruct (Allocate_claims_first_free db c now Hu Hnone Hnf)
      as (? & ? & ? & _ & _ & _ & HA).
    rewrite HA in Hresp. done.
  - intros Hnf. by rewrite Allocate_exhausted.
Qed.

(** ** Renewal *)

Lemma find_by_value_Some db v r :
  find_by_value db v = Some r →
  ∃ l1 l2, db = l1 ++ r :: l2 ∧ identifier r = v.
Proof.
  intros (l1 & l2 & -> & Hr & _)%first_row_Some.
  unfold identifier_is in Hr. apply bool_decide_eq_true in Hr. eauto.
Qed.

Lemma find_by_value_None db v :
  find_by_value db v = None ↔ ∀ r, r ∈ db → identifier r ≠ v.
Proof.
  unfold find_by_value. rewrite first_row_None. unfold identifier_is.
  split; intros H r Hr; specialize (H r Hr).
  - by apply bool_decide_eq_false in H.
  - by apply bool_decide_eq_false.
Qed.

(** A renewal of an identifier that is in the pool but free: the NULL holder
    does not scan into the Go string, and the handler answers 500. *)
Lemma Renew_free db c v now r :
  find_by_value db v = Some r → locked_by r = None →
  Renew c v now db = (StatusInternalServerError, db).
Proof.
  intros Hfind Hfree. unfold Renew, scan_locked_by. by rewrite Hfind, Hfree.
Qed.

Lemma Renew_unchanged db c v now :
  (Renew c v now db).1 ≠ StatusOK NoBody → (Renew c v now db).2 = db.
Proof.
  unfold Renew. destruct (scan_locked_by db v); [|done..].
  by case_bool_decide.
Qed.

(** C7. Renew answers 200 exactly when the identifier is in the pool and
    its holder is the caller; it then rewrites the timestamp of that one row
    to the current time, keeping its identifier and holder and every other
    row; with any other answer the table is unchanged. *)
Theorem Renew_frame (db : table) (c v : string) (now : Z) :
  schema_unique db →
  ((Renew c v now db).1 = StatusOK NoBody ↔ holds db c v) ∧
  (holds db c v →
   ∃ (l1 l2 : table) (r : row),
     db = l1 ++ r :: l2 ∧ identifier r = v ∧ locked_by r = Some c ∧
     Renew c v now db
     = (StatusOK NoBody, l1 ++ Row v (Some c) (Some now) :: l2)) ∧
  ((Renew c v now db).1 ≠ StatusOK NoBody → (Renew c v now db).2 = db) ∧
  (c ≠ "" → v ≠ "" →
   livenessHandler (POST {| ClientID := c; ReqIdentifier := v |}) now db
   = Renew c v now db).
Proof.
  intros Hu.
  assert (Hok : holds db c v →
    ∃ (l1 l2 : table) (r : row),
      db = l1 ++ r :: l2 ∧ identifier r = v ∧ locked_by r = Some c ∧
      Renew c v now db
      = (StatusOK NoBody, l1 ++ Row v (Some c) (Some now) :: l2)).
  { intros (r & Hr & Hid & Hl).
    destruct (find_by_value db v) as [r0|] eqn:Efind; cycle 1.
    { rewrite find_by_value_None in Efind. by destruct (Efind r Hr). }
    pose proof Efind as (l1 & l2 & Hdb & Hid0)%find_by_value_Some.
    assert (r = r0) as ->.
    { eapply (schema_unique_split db l1 r0 l2 r Hu Hdb Hr). congruence. }
    exists l1, l2, r0. split_and!; [done..|].
    unfold Renew, scan_locked_by. rewrite Efind, Hl.
    rewrite bool_decide_eq_false_2 by (by intros []). f_equal. subst db.
    rewrite (UPDATE_unique _ _ l1 l2 r0 Hu).
    - unfold identifier_is, locked_by_is.
      rewrite !bool_decide_eq_true_2 by done. cbn.
      unfold set_last_seen. by rewrite Hid, Hl.
    - intros r' [Hr' _]%andb_prop. unfold identifier_is in Hr'.
      apply bool_decide_eq_true in Hr'. congruence. }
  split_and!; [|done|apply Renew_unchanged|apply livenessHandler_POST].
  split.
  - unfold Renew, scan_locked_by.
    destruct (find_by_value db v) as [r0|] eqn:Efind; [|done].
    destruct (locked_by r0) as [h|] eqn:Hl; [|done].
    case_bool_decide as Hh; [done|]. intros _.
    apply find_by_value_Some in Efind as (l1 & l2 & -> & Hid).
    exists r0. split_and!; [|done|].
    + apply elem_of_app. right. left.
    + rewrite Hl. f_equal. by destruct (decide (h = c)).
  - intros (l1 & l2 & r & _ & _ & _ & HR)%Hok. by rewrite HR.
Qed.

(** C3 on the code: the second scenario of the specification, run through
    the handlers.  The lease is reclaimed at t=16; the renewal at t=17 finds
    the identifier in the pool with no holder, and the answer is 500
    Internal Server Error, not 409 Conflict.  The table is unchanged. *)
Theorem Renew_free_identifier_scenario :
  let vm_a := {| ClientID := "vm-a"; ReqIdentifier := "id-1" |} in
  let db0 := preload ["id-1"] [] in
  let a1 := allocateHandler (POST {| alloc_ClientID := "vm-a" |}) 0 db0 in
  let a2 := livenessHandler (POST vm_a) 5 a1.2 in
  let a3 := ReclaimStale 14 10 a2.2 in
  let a4 := ReclaimStale 16 10 a3.2 in
  a1.1 = StatusOK (AllocateResponse "id-1") ∧
  a2.1 = StatusOK NoBody ∧
  a3.1 = 0 ∧ a4 = (1, [Row "id-1" None None]) ∧
  livenessHandler (POST vm_a) 17 a4.2
  = (StatusInternalServerError, [Row "id-1" None None]).
Proof. vm_compute. done. Qed.

(** ** Release *)

(** C5. Release always answers 200.  The row of [value] is cleared when its
    holder is the caller; every other row is kept as it is, and when the
    caller does not hold [value] the whole table is kept: an identifier held
    by another client B is still held by B afterwards. *)
Theorem Release_guarded (db : table) (c v : string) :
  let after := releaseHandler (POST {| ClientID := c; ReqIdentifier := v |}) db in
  after.1 = StatusOK ReleasedBody ∧
  (∀ (i : nat) (r : row), db !! i = Some r →
     after.2 !! i
     = Some (if decide (identifier r = v ∧ locked_by r = Some c)
             then Row (identifier r) None None else r)) ∧
  (¬ holds db c v → after.2 = db) ∧
  (∀ b : string, b ≠ c → holds db b v → holds after.2 b v).
Proof.
  cbn zeta. rewrite releaseHandler_POST. unfold Release. cbn [fst snd].
  set (cond := λ r, identifier_is v r && locked_by_is c r).
  assert (Hcond : ∀ r, cond r = true ↔ identifier r = v ∧ locked_by r = Some c).
  { intros r. unfold cond, identifier_is, locked_by_is.
    by rewrite andb_true_iff, !bool_decide_eq_true. }
  split_and!; [done| | |].
  - intros i r Hi. rewrite UPDATE_lookup, Hi. cbn. f_equal.
    destruct (cond r) eqn:Hc.
    + by rewrite decide_True by (by apply Hcond).
    + rewrite decide_False; [done|]. rewrite <- Hcond. congruence.
  - intros Hnot. apply UPDATE_untouched. intros r Hr.
    destruct (cond r) eqn:Hc; [|done]. apply Hcond in Hc as [? ?].
    destruct Hnot. by exists r.
  - intros b Hb (r & Hr & Hid & Hl). exists r. split_and!; [|done..].
    apply elem_of_UPDATE. exists r. split; [done|].
    destruct (cond r) eqn:Hc; [|done]. apply Hcond in Hc as [_ ?]. congruence.
Qed.

(** ** Reclamation *)

(** C4. One sweep with threshold [now - stale_timeout] clears exactly the
    leased rows whose timestamp is strictly below the threshold, reports how
    many they are, and keeps every row whose timestamp is at the threshold
    or later. *)
Theorem ReclaimStale_exact (db : table) (now stale_timeout : Z) :
  let threshold := (now - stale_timeout)%Z in
  let swept := ReclaimStale now stale_timeout db in
  (∀ (i : nat) (r : row), db !! i = Some r →
     swept.2 !! i
     = Some (if decide (expired threshold r)
             then Row (identifier r) None None else r)) ∧
  swept.1 = length (filter (expired threshold) db) ∧
  (∀ (i : nat) (r : row) (t : Z),
     db !! i = Some r → last_seen r = Some t → (threshold ≤ t)%Z →
     swept.2 !! i = Some r).
Proof.
  cbn zeta. unfold ReclaimStale. cbn [fst snd].
  set (threshold := (now - stale_timeout)%Z).
  assert (Hrow : ∀ (i : nat) (r : row), db !! i = Some r →
    UPDATE set_null (is_stale threshold) db !! i
    = Some (if decide (expired threshold r)
            then Row (identifier r) None None else r)).
  { intros i r Hi. rewrite UPDATE_lookup, Hi. cbn. f_equal.
    destruct (is_stale threshold r) eqn:Hs.
    - by rewrite decide_True by (by apply is_stale_expired).
    - rewrite decide_False; [done|]. rewrite <- is_stale_expired. congruence. }
  split_and!; [done| |].
  - apply RowsAffected_filter. intros r. apply is_stale_expired.
  - intros i r t Hi Ht Hle. rewrite (Hrow i r Hi).
    rewrite decide_False; [done|].
    intros (h & t' & _ & Ht' & Hlt). simplify_eq. lia.
Qed.

(** ** Invariants of a run *)

Section preservation.
Implicit Types (db : table) (r : row) (e : event) (o : operation).

(** *** The seeded table *)

Lemma preload_seeded ids db :
  schema_unique db → all_free db →
  schema_unique (preload ids db) ∧ all_free (preload ids db).
Proof.
  unfold preload. revert db.
  induction ids as [|id ids IH]; intros db Hu Hf; [done|]. cbn.
  apply IH; unfold insert_or_ignore; case_bool_decide as Hin; try done.
  - unfold schema_unique in *. rewrite fmap_app. cbn.
    apply NoDup_app. split_and!; [done| |apply NoDup_singleton].
    intros x Hx ->%list_elem_of_singleton. done.
  - apply Forall_app. split; [done|]. by apply Forall_singleton.
Qed.

Lemma all_free_holder_unique db : all_free db → holder_unique db.
Proof.
  intros Hf i j ri rj h Hi _ Hh _.
  apply list_elem_of_lookup_2 in Hi.
  rewrite (proj1 (proj1 (Forall_forall _ _) Hf ri Hi)) in Hh. done.
Qed.

Lemma all_free_lease_consistent db : all_free db → lease_consistent db.
Proof.
  intros Hf r Hr. destruct (proj1 (Forall_forall _ _) Hf r Hr) as [-> ->].
  done.
Qed.

Lemma all_free_no_empty_holder db : all_free db → no_empty_holder db.
Proof.
  intros Hf r Hr. destruct (proj1 (Forall_forall _ _) Hf r Hr) as [-> _].
  done.
Qed.

(** *** Updates that clear or keep the holder *)

Lemma UPDATE_holder_unique set cond db :
  (∀ r, locked_by (set r) = locked_by r ∨ locked_by (set r) = None) →
  holder_unique db → holder_unique (UPDATE set cond db).
Proof.
  intros Hset Hu i j ri rj h Hi Hj Hhi Hhj.
  rewrite UPDATE_lookup in Hi, Hj.
  destruct (db !! i) as [ri0|] eqn:Ei; [|done].
  destruct (db !! j) as [rj0|] eqn:Ej; [|done].
  cbn in Hi, Hj. simplify_eq.
  apply (Hu i j ri0 rj0 h Ei Ej).
  - destruct (cond ri0); [|done]. destruct (Hset ri0); congruence.
  - destruct (cond rj0); [|done]. destruct (Hset rj0); congruence.
Qed.

Lemma UPDATE_no_empty_holder set cond db :
  (∀ r, locked_by (set r) = locked_by r ∨ locked_by (set r) = None) →
  no_empty_holder db → no_empty_holder (UPDATE set cond db).
Proof.
  intros Hset Hne r' (r & Hr & ->)%elem_of_UPDATE. specialize (Hne r Hr).
  destruct (cond r); [|done]. destruct (Hset r); congruence.
Qed.

(** *** The four operations *)

Lemma apply_op_identifiers o db :
  identifier <$> apply_op o db = identifier <$> db.
Proof.
  destruct o as [c now|c v now|c v|now timeout]; cbn.
  - unfold Allocate. destruct (find_by_holder db c); [done|].
    destruct (_ <$> first_row _ db); cbn; by apply UPDATE_identifiers.
  - unfold Renew. destruct (scan_locked_by db v); [|done..].
    case_bool_decide; [done|]. cbn. by apply UPDATE_identifiers.
  - by apply UPDATE_identifiers.
  - by apply UPDATE_identifiers.
Qed.

Lemma apply_op_schema_unique o db :
  schema_unique db → schema_unique (apply_op o db).
Proof. unfold schema_unique. by rewrite apply_op_identifiers. Qed.

Lemma Allocate_holder_unique c now db :
  schema_unique db → holder_unique db →
  holder_unique (Allocate c now db).2.
Proof.
  intros Hs Hu. destruct (find_by_holder db c) as [X|] eqn:Efind.
  { unfold Allocate. by rewrite Efind. }
  pose proof (proj1 (find_by_holder_None db c) Efind) as Hnone.
  destruct (decide (no_free db)) as [Hnf|Hnf].
  { by rewrite Allocate_exhausted. }
  destruct (Allocate_claims_first_free db c now Hs Efind Hnf)
    as (l1 & l2 & r & -> & _ & _ & ->). cbn.
  set (r' := Row (identifier r) (Some c) (Some now)).
  assert (Hother : ∀ (i : nat) (x : row) (h : string),
    (l1 ++ r' :: l2) !! i = Some x → locked_by x = Some h →
    (i = length l1 ∧ h = c) ∨ (h ≠ c ∧ (l1 ++ r :: l2) !! i = Some x)).
  { intros i x h Hi Hh.
    destruct (decide (i = length l1)) as [->|Hne].
    - left. rewrite list_lookup_middle in Hi by done. simplify_eq.
      cbn in Hh. by simplify_eq.
    - right.
      assert (Hi' : (l1 ++ r :: l2) !! i = Some x).
      { destruct (decide (i < length l1)).
        - rewrite lookup_app_l in Hi |- * by done. done.
        - rewrite lookup_app_r in Hi |- * by lia.
          destruct (i - length l1) as [|k] eqn:Ek; [lia|]. done. }
      split; [|done]. intros ->. apply (Hnone (identifier x)).
      exists x. split_and!; [|done..]. by eapply list_elem_of_lookup_2. }
  intros i j ri rj h Hi Hj Hhi Hhj.
  destruct (Hother i ri h Hi Hhi) as [[-> ->]|[Hc Hi']];
    destruct (Hother j rj _ Hj Hhj) as [[-> ?]|[Hc' Hj']]; try done.
  by apply (Hu i j ri rj h).
Qed.

Lemma apply_op_holder_unique o db :
  schema_unique db → holder_unique db → holder_unique (apply_op o db).
Proof.
  intros Hs Hu. destruct o as [c now|c v now|c v|now timeout]; cbn.
  - by apply Allocate_holder_unique.
  - unfold Renew. destruct (scan_locked_by db v); [|done..].
    case_bool_decide; [done|]. cbn.
    apply UPDATE_holder_unique; [|done]. by left.
  - apply UPDATE_holder_unique; [|done]. by right.
  - apply UPDATE_holder_unique; [|done]. by right.
Qed.

Lemma apply_op_lease_consistent o db :
  lease_consistent db → lease_consistent (apply_op o db).
Proof.
  intros Hl. destruct o as [c now|c v now|c v|now timeout]; cbn.
  - unfold Allocate. destruct (find_by_holder db c); [done|].
    assert (Hgoal : lease_consistent
      (UPDATE (set_lock c now) (identifier_in (first_free db)) db)).
    { intros r' (r0 & Hr0 & ->)%elem_of_UPDATE.
      destruct (identifier_in _ r0); [done|by apply Hl]. }
    by destruct (_ <$> first_row _ db).
  - unfold Renew. destruct (scan_locked_by db v); [|done..].
    case_bool_decide; [done|]. cbn.
    intros r' (r0 & Hr0 & ->)%elem_of_UPDATE.
    destruct (_ && _) eqn:Hc; [|by apply Hl].
    apply andb_prop in Hc as [_ Hc]. unfold locked_by_is in Hc.
    apply bool_decide_eq_true in Hc. cbn. by rewrite Hc.
  - intros r' (r0 & Hr0 & ->)%elem_of_UPDATE.
    destruct (_ && _); [done|by apply Hl].
  - intros r' (r0 & Hr0 & ->)%elem_of_UPDATE.
    destruct (is_stale _ r0); [done|by apply Hl].
Qed.

Lemma apply_op_no_empty_holder o db :
  (∀ c now, o = OpAllocate c now → c ≠ "") →
  no_empty_holder db → no_empty_holder (apply_op o db).
Proof.
  intros Hc Hne. destruct o as [c now|c v now|c v|now timeout]; cbn.
  - unfold Allocate. destruct (find_by_holder db c); [done|].
    assert (Hgoal : no_empty_holder
      (UPDATE (set_lock c now) (identifier_in (first_free db)) db)).
    { intros r' (r0 & Hr0 & ->)%elem_of_UPDATE.
      destruct (identifier_in _ r0); [|by apply Hne].
      cbn. intros [= ->]. by apply (Hc "" now). }
    by destruct (_ <$> first_row _ db).
  - unfold Renew. destruct (scan_locked_by db v); [|done..].
    case_bool_decide; [done|]. cbn.
    apply UPDATE_no_empty_holder; [|done]. by left.
  - apply UPDATE_no_empty_holder; [|done]. by right.
  - apply UPDATE_no_empty_holder; [|done]. by right.
Qed.

(** *** What an event does to the table

    A request is either turned away, and the table is kept, or it runs the
    operation it names; an allocation that runs has a client id. *)
Lemma handle_cases e db :
  handle e db = db ∨
  ∃ o, handle e db = apply_op o db ∧
       (∀ c now, o = OpAllocate c now → c ≠ "").
Proof.
  destruct e as [r now|r now|r|now timeout]; cbn.
  - unfold allocateHandler. case_bool_decide; [by left|].
    destruct (Body r) as [req|]; [|by left].
    case_bool_decide as Hc; [by left|]. right.
    exists (OpAllocate (alloc_ClientID req) now). split; [done|].
    by intros ?? [= <- _].
  - unfold livenessHandler. case_bool_decide; [by left|].
    destruct (Body r) as [req|]; [|by left].
    destruct (_ || _); [by left|]. right.
    by exists (OpRenew (ClientID req) (ReqIdentifier req) now).
  - unfold releaseHandler. case_bool_decide; [by left|].
    destruct (Body r) as [req|]; [|by left]. right.
    by exists (OpRelease (ClientID req) (ReqIdentifier req)).
  - right. by exists (OpReclaimStale now timeout).
Qed.

Lemma handle_schema_unique e db :
  schema_unique db → schema_unique (handle e db).
Proof.
  intros Hs. destruct (handle_cases e db) as [->|(o & -> & _)]; [done|].
  by apply apply_op_schema_unique.
Qed.

Lemma handle_holder_unique e db :
  schema_unique db → holder_unique db → holder_unique (handle e db).
Proof.
  intros Hs Hu. destruct (handle_cases e db) as [->|(o & -> & _)]; [done|].
  by apply apply_op_holder_unique.
Qed.

Lemma handle_lease_consistent e db :
  lease_consistent db → lease_consistent (handle e db).
Proof.
  intros Hl. destruct (handle_cases e db) as [->|(o & -> & _)]; [done|].
  by apply apply_op_lease_consistent.
Qed.

Lemma handle_no_empty_holder e db :
  no_empty_holder db → no_empty_holder (handle e db).
Proof.
  intros Hne. destruct (handle_cases e db) as [->|(o & -> & Hc)]; [done|].
  by apply apply_op_no_empty_holder.
Qed.

(** *** Every reachable table *)

Lemma seed_invariant ids :
  schema_unique (preload ids []) ∧ all_free (preload ids []).
Proof. apply preload_seeded; [apply NoDup_nil_2|apply Forall_nil_2]. Qed.

Lemma reachable_by_ops_invariant db :
  reachable_by_ops db →
  schema_unique db ∧ holder_unique db ∧ lease_consistent db.
Proof.
  induction 1 as [ids|o db _ (Hs & Hu & Hl)].
  - destruct (seed_invariant ids) as [Hs Hf].
    split_and!; [done|by apply all_free_holder_unique
                |by apply all_free_lease_consistent].
  - split_and!; [by apply apply_op_schema_unique
                |by apply apply_op_holder_unique
                |by apply apply_op_lease_consistent].
Qed.

Lemma reachable_reachable_by_ops db : reachable db → reachable_by_ops db.
Proof.
  induction 1 as [ids|e db _ IH]; [constructor|].
  destruct (handle_cases e db) as [->|(o & -> & _)]; [done|].
  by constructor.
Qed.

Lemma reachable_no_empty_holder db : reachable db → no_empty_holder db.
Proof.
  induction 1 as [ids|e db _ IH].
  - apply all_free_no_empty_holder, seed_invariant.
  - by apply handle_no_empty_holder.
Qed.

End preservation.

(** C2. In every table reachable from the seeded one, whether the four
    operations are applied directly or through the service's requests and
    sweeps, no two rows have the same holder; and each operation, run on a
    table of the schema with that property, gives a table with it. *)
Theorem holder_unique_invariant :
  (∀ db, reachable_by_ops db → holder_unique db) ∧
  (∀ o db, schema_unique db → holder_unique db →
           holder_unique (apply_op o db)) ∧
  (∀ db, reachable db → holder_unique db) ∧
  (∀ e db, schema_unique db → holder_unique db →
           holder_unique (handle e db)).
Proof.
  split_and!.
  - intros db Hr. by apply reachable_by_ops_invariant.
  - intros o db. apply apply_op_holder_unique.
  - intros db Hr%reachable_reachable_by_ops.
    by apply reachable_by_ops_invariant.
  - intros e db. apply handle_holder_unique.
Qed.

(** C6. In every reachable table a row has no holder exactly when it has no
    timestamp, and each of the four operations keeps that property, from
    any table that has it. *)
Theorem lease_consistent_invariant :
  (∀ db, reachable_by_ops db → lease_consistent db) ∧
  (∀ o db, lease_consistent db → lease_consistent (apply_op o db)) ∧
  (∀ db, reachable db → lease_consistent db) ∧
  (∀ e db, lease_consistent db → lease_consistent (handle e db)).
Proof.
  split_and!.
  - intros db Hr. by apply reachable_by_ops_invariant.
  - intros o db. apply apply_op_lease_consistent.
  - intros db Hr%reachable_reachable_by_ops.
    by apply reachable_by_ops_invariant.
  - intros e db. apply handle_lease_consistent.
Qed.

(** C10. The service never leases an identifier to the empty client id:
    [allocateHandler] and [livenessHandler] turn an empty [client_id] away
    with 400 and the table untouched, so no reachable table has a row held
    by the empty string; [releaseHandler] checks nothing, and on an empty
    [client_id] it answers 200 and leaves every reachable table as it is,
    whatever the identifier. *)
Theorem empty_client_id :
  (∀ db, reachable db → no_empty_holder db) ∧
  (∀ now db,
     allocateHandler (POST {| alloc_ClientID := "" |}) now db
     = (StatusBadRequest "client_id is required", db)) ∧
  (∀ v now db,
     livenessHandler (POST {| ClientID := ""; ReqIdentifier := v |}) now db
     = (StatusBadRequest "client_id and identifier are required", db)) ∧
  (∀ db v, reachable db →
     releaseHandler (POST {| ClientID := ""; ReqIdentifier := v |}) db
     = (StatusOK ReleasedBody, db)).
Proof.
  split_and!.
  - apply reachable_no_empty_holder.
  - apply allocateHandler_empty.
  - apply livenessHandler_empty.
  - intros db v Hne%reachable_no_empty_holder.
    rewrite releaseHandler_POST. unfold Release. f_equal.
    apply UPDATE_untouched. intros r Hr. apply andb_false_iff. right.
    unfold locked_by_is. apply bool_decide_eq_false. by apply Hne.
Qed.

(** In a reachable table the row a client holds is the row the lookup by
    holder finds, so a repeated allocation answers the identifier of that
    row, whichever way "holds" is read. *)
Lemma Allocate_held_reachable db c X now :
  reachable_by_ops db → holds db c X →
  Allocate c now db = (StatusOK (AllocateResponse X), db).
Proof.
  intros (_ & Hu & _)%reachable_by_ops_invariant Hheld.
  by apply Allocate_held, holder_unique_find.
Qed.

(** C1. A client that already holds an identifier X, in the sense that
    some row of X has the client as its holder, is answered an identifier it
    holds and the table is the very same table afterwards, so the number of
    free identifiers has not moved.  That identifier is X in every table
    where no two rows share a holder, and so in every table reachable from
    the seeded one.  The HTTP handler runs the same steps on every request
    with a client id. *)
Theorem Allocate_idempotent (db : table) (c X : string) (now : Z) :
  holds db c X →
  (∃ X', holds db c X' ∧
         Allocate c now db = (StatusOK (AllocateResponse X'), db)) ∧
  (holder_unique db →
   Allocate c now db = (StatusOK (AllocateResponse X), db)) ∧
  (reachable_by_ops db →
   Allocate c now db = (StatusOK (AllocateResponse X), db)) ∧
  free_count (Allocate c now db).2 = free_count db ∧
  (c ≠ "" →
   allocateHandler (POST {| alloc_ClientID := c |}) now db
   = Allocate c now db).
Proof.
  intros Hheld.
  destruct (find_by_holder db c) as [X'|] eqn:Efind; cycle 1.
  { rewrite find_by_holder_None in Efind. by destruct (Efind X). }
  pose proof (Allocate_held db c X' now Efind) as HA.
  assert (Hunique : holder_unique db →
            Allocate c now db = (StatusOK (AllocateResponse X), db)).
  { intros Hu. apply Allocate_held. by apply holder_unique_find. }
  split_and!.
  - exists X'. split; [by apply find_by_holder_holds|done].
  - done.
  - intros (_ & Hu & _)%reachable_by_ops_invariant. by apply Hunique.
  - by rewrite HA.
  - apply allocateHandler_POST.
Qed.

(** ** Concrete runs *)

(** The first scenario of the specification: two slots, three clients. *)
Example scenario_exhaust_release_reuse :
  let allocate c db := allocateHandler (POST {| alloc_ClientID := c |}) 0 db in
  let db0 := preload ["id-1"; "id-2"] [] in
  let a1 := allocate "vm-a" db0 in
  let a2 := allocate "vm-b" a1.2 in
  let a3 := allocate "vm-c" a2.2 in
  let a4 :=
    releaseHandler (POST {| ClientID := "vm-a"; ReqIdentifier := "id-1" |})
      a3.2 in
  let a5 := allocate "vm-c" a4.2 in
  a1.1 = StatusOK (AllocateResponse "id-1") ∧
  a2.1 = StatusOK (AllocateResponse "id-2") ∧
  a3.1 = StatusServiceUnavailable ∧
  a4.1 = StatusOK ReleasedBody ∧
  a5 = (StatusOK (AllocateResponse "id-1"),
        [Row "id-1" (Some "vm-c") (Some 0%Z);
         Row "id-2" (Some "vm-b") (Some 0%Z)]).
Proof. vm_compute. done. Qed.

Lemma two_slots_schema : schema_unique two_slots.
Proof. unfold schema_unique. apply (bool_decide_unpack _). by vm_compute. Qed.

Lemma Allocate_idempotent_witness :
  holds two_slots "vm-a" "id-1" ∧
  Allocate "vm-a" 7 two_slots
  = (StatusOK (AllocateResponse "id-1"), two_slots).
Proof.
  assert (Hheld : holds two_slots "vm-a" "id-1").
  { apply find_by_holder_holds. reflexivity. }
  assert (Hu : holder_unique two_slots).
  { intros [|[|i]] [|[|j]] ri rj h Hi Hj Hhi Hhj; cbn in *; simplify_eq;
      done. }
  split; [exact Hheld|].
  destruct (Allocate_idempotent two_slots "vm-a" "id-1" 7 Hheld)
    as (_ & Hunique & _).
  exact (Hunique Hu).
Defined.

Lemma Allocate_fresh_witness :
  Allocate "vm-b" 7 two_slots
  = (StatusOK (AllocateResponse "id-2"),
     [Row "id-1" (Some "vm-a") (Some 0%Z); Row "id-2" (Some "vm-b") (Some 7%Z)])
  ∧ ((Allocate "vm-b" 7 two_slots).1 = StatusServiceUnavailable
     ↔ no_free two_slots).
Proof.
  assert (Hnone : ∀ X, ¬ holds two_slots "vm-b" X).
  { apply find_by_holder_None. reflexivity. }
  split; [reflexivity|].
  exact (proj1 (Allocate_fresh two_slots "vm-b" 7 two_slots_schema Hnone)).
Defined.

Lemma Renew_frame_witness :
  Renew "vm-a" "id-1" 5 two_slots
  = (StatusOK NoBody,
     [Row "id-1" (Some "vm-a") (Some 5%Z); Row "id-2" None None])
  ∧ ((Renew "vm-a" "id-1" 5 two_slots).1 = StatusOK NoBody
     ↔ holds two_slots "vm-a" "id-1").
Proof.
  split; [reflexivity|].
  exact (proj1 (Renew_frame two_slots "vm-a" "id-1" 5 two_slots_schema)).
Defined.

Lemma holder_unique_invariant_witness :
  holder_unique
    (apply_op (OpAllocate "vm-b" 1)
       (apply_op (OpAllocate "vm-a" 0) (preload ["id-1"; "id-2"] []))).
Proof.
  apply (proj1 holder_unique_invariant). do 2 apply by_ops_step.
  apply by_ops_seed.
Defined.

Lemma lease_consistent_invariant_witness :
  lease_consistent
    (apply_op (OpReclaimStale 16 10)
       (apply_op (OpRenew "vm-a" "id-1" 5)
          (apply_op (OpAllocate "vm-a" 0) (preload ["id-1"; "id-2"] [])))).
Proof.
  apply (proj1 lease_consistent_invariant). do 3 apply by_ops_step.
  apply by_ops_seed.
Defined.

Lemma empty_client_id_witness :
  let db :=
    handle (AllocateReq (POST {| alloc_ClientID := "vm-a" |}) 0)
      (handle (AllocateReq (POST {| alloc_ClientID := "" |}) 0)
         (preload ["id-1"] [])) in
  no_empty_holder db ∧
  releaseHandler (POST {| ClientID := ""; ReqIdentifier := "id-1" |}) db
  = (StatusOK ReleasedBody, db).
Proof.
  cbn zeta.
  assert (Hr : reachable
    (handle (AllocateReq (POST {| alloc_ClientID := "vm-a" |}) 0)
      (handle (AllocateReq (POST {| alloc_ClientID := "" |}) 0)
         (preload ["id-1"] [])))).
  { do 2 apply reachable_step. apply reachable_seed. }
  destruct empty_client_id as (Hne & _ & _ & Hrel).
  split; [by apply Hne|by apply Hrel].
Defined.

(** ** Byte strings *)

Section string_facts.
Implicit Types (s pre post : string) (a sep : ascii).

Lemma app_nil_s s : EmptyString +:+ s = s.
Proof. reflexivity. Qed.

Lemma app_cons_s a s1 s2 : String a s1 +:+ s2 = String a (s1 +:+ s2).
Proof. reflexivity. Qed.

Lemma length_app_s s1 s2 :
  String.length (s1 +:+ s2) = String.length s1 + String.length s2.
Proof.
  induction s1 as [|b s1 IH]; rewrite ?app_nil_s, ?app_cons_s; simpl;
    [done|by f_equal].
Qed.

Lemma app_assoc_s s1 s2 s3 : (s1 +:+ s2) +:+ s3 = s1 +:+ (s2 +:+ s3).
Proof.
  induction s1 as [|b s1 IH]; rewrite ?app_nil_s, ?app_cons_s;
    [done|by f_equal].
Qed.

Lemma substring_all s : String.substring 0 (String.length s) s = s.
Proof. induction s as [|b s IH]; simpl; [done|]. by f_equal. Qed.

Lemma substring_prefix pre s :
  String.substring 0 (String.length pre) (pre +:+ s) = pre.
Proof.
  induction pre as [|b pre IH]; rewrite ?app_nil_s, ?app_cons_s; simpl;
    [by destruct s|by f_equal].
Qed.

Lemma substring_skip pre s (m : nat) :
  String.substring (String.length pre) m (pre +:+ s)
  = String.substring 0 m s.
Proof.
  induction pre as [|b pre IH]; rewrite ?app_nil_s, ?app_cons_s; simpl; done.
Qed.

Lemma length_substring_le (n m : nat) s :
  String.length (String.substring n m s) ≤ String.length s - n.
Proof.
  revert n m. induction s as [|b s IH]; intros [|n] [|m]; cbn; try lia.
  - specialize (IH 0 m). lia.
  - apply IH.
  - apply IH.
Qed.

Lemma has_byte_app a s1 s2 :
  has_byte a (s1 +:+ s2) = has_byte a s1 || has_byte a s2.
Proof.
  induction s1 as [|b s1 IH]; rewrite ?app_nil_s, ?app_cons_s; simpl;
    [done|].
  by rewrite IH, orb_assoc.
Qed.

Lemma find_byte_None a s : find_byte a s = None ↔ has_byte a s = false.
Proof.
  induction s as [|b s IH]; cbn; [done|].
  case_bool_decide; cbn; [done|]. by rewrite fmap_None.
Qed.

Lemma find_byte_app a pre post :
  has_byte a pre = false →
  find_byte a (pre +:+ String a post) = Some (String.length pre).
Proof.
  induction pre as [|b pre IH]; rewrite ?app_nil_s, ?app_cons_s; simpl.
  - intros _. by rewrite bool_decide_eq_true_2.
  - intros [Hb Hpre]%orb_false_elim. rewrite Hb. cbn.
    by rewrite IH.
Qed.

Lemma find_byte_Some a s (n : nat) :
  find_byte a s = Some n →
  ∃ pre post,
    s = pre +:+ String a post ∧ has_byte a pre = false ∧
    String.length pre = n.
Proof.
  revert n. induction s as [|b s IH]; intros n; cbn; [done|].
  case_bool_decide as Hb.
  - intros [= <-]. subst b. by exists EmptyString, s.
  - destruct (find_byte a s) as [k|]; [|done]. cbn. intros [= <-].
    destruct (IH k eq_refl) as (pre & post & -> & Hpre & <-).
    exists (String b pre), post. rewrite app_cons_s. simpl.
    by rewrite (bool_decide_eq_false_2 _ Hb), Hpre.
Qed.

(** Two ways to cut one string: the shorter head is a head of the longer. *)
Lemma app_cut s1 t1 s2 t2 :
  s1 +:+ t1 = s2 +:+ t2 → String.length s1 ≤ String.length s2 →
  ∃ mid, s2 = s1 +:+ mid ∧ t1 = mid +:+ t2.
Proof.
  revert s2. induction s1 as [|b s1 IH]; intros s2;
    rewrite ?app_nil_s, ?app_cons_s.
  - intros -> _. by exists s2.
  - destruct s2 as [|b2 s2]; rewrite ?app_nil_s, ?app_cons_s; simpl; [lia|].
    intros [= <- Heq] Hlen.
    destruct (IH s2 Heq) as (mid & -> & ->); [lia|]. by exists mid.
Qed.

Lemma Split_nonempty s sep : Split s sep ≠ [].
Proof.
  induction s as [|b s IH]; cbn; [done|].
  case_bool_decide; [done|]. by destruct (Split s sep).
Qed.

Lemma Split_one s sep part :
  Split s sep = [part] ↔ part = s ∧ has_byte sep s = false.
Proof.
  revert part. induction s as [|b s IH]; intros part; cbn.
  - split; [by intros [= <-]|by intros [-> _]].
  - case_bool_decide as Hb; cbn.
    + split; [|by intros [_ ?]]. intros [= _ Hs].
      by destruct (Split_nonempty s sep).
    + destruct (Split s sep) as [|p0 [|p1 ps]] eqn:Es.
      * by destruct (Split_nonempty s sep).
      * destruct (IH p0) as [Hfw _]. destruct (Hfw eq_refl) as [-> Hno].
        split; [by intros [= <-]|by intros [-> _]].
      * split; [done|]. intros [-> Hno].
        destruct (IH s) as [_ Hbw]. by specialize (Hbw (conj eq_refl Hno)).
Qed.

Lemma Split_two s sep lo hi :
  Split s sep = [lo; hi] ↔
  s = lo +:+ String sep hi ∧
  has_byte sep lo = false ∧ has_byte sep hi = false.
Proof.
  revert lo. induction s as [|b s IH]; intros lo; cbn.
  - split; [done|]. intros [Heq _]. by destruct lo.
  - case_bool_decide as Hb; cbn.
    + subst b. split.
      * intros [= <- Hs]. apply Split_one in Hs as [-> Hno]. done.
      * intros (Heq & Hlo & Hhi).
        destruct lo as [|c lo]; rewrite ?app_nil_s, ?app_cons_s in Heq;
          simpl in Hlo.
        -- injection Heq as ->. f_equal. by apply Split_one.
        -- injection Heq as <- _. by rewrite bool_decide_eq_true_2 in Hlo.
    + destruct (Split s sep) as [|p0 ps] eqn:Es.
      { by destruct (Split_nonempty s sep). }
      split.
      * intros [= <- ->]. destruct (IH p0) as [Hfw _].
        destruct (Hfw eq_refl) as (-> & Hlo & Hhi).
        rewrite app_cons_s. simpl.
        by rewrite (bool_decide_eq_false_2 _ Hb), Hlo.
      * intros (Heq & Hlo & Hhi).
        destruct lo as [|c lo]; rewrite ?app_nil_s, ?app_cons_s in Heq;
          simpl in Hlo.
        { injection Heq as -> _. done. }
        injection Heq as <- ->. apply orb_false_elim in Hlo as [_ Hlo].
        destruct (IH lo) as [_ Hbw].
        specialize (Hbw (conj eq_refl (conj Hlo Hhi))). congruence.
Qed.

End string_facts.

(** ** The guards of [expandPattern] *)

Lemma gtb_false (x y : Z) : (x ≤ y)%Z → (x >? y)%Z = false.
Proof. intros Hle. rewrite Z.gtb_ltb. apply Z.ltb_ge. lia. Qed.

Lemma Index_Some s a (n : nat) :
  find_byte a s = Some n → Index s a = Z.of_nat n.
Proof. unfold Index. by intros ->. Qed.

(** The slice between the two brackets is the segment. *)
Lemma slice_segment prefix seg rest a :
  slice (prefix +:+ String a (seg +:+ rest))
        (Z.of_nat (String.length prefix) + 1)
        (Z.of_nat (String.length prefix + 1 + String.length seg))
  = seg.
Proof.
  unfold slice.
  replace (Z.to_nat (Z.of_nat (String.length prefix) + 1))
    with (String.length (prefix +:+ String a EmptyString))
    by (rewrite length_app_s; simpl; lia).
  replace (Z.to_nat _) with (String.length seg) by lia.
  replace (prefix +:+ String a (seg +:+ rest))
    with ((prefix +:+ String a EmptyString) +:+ (seg +:+ rest))
    by (by rewrite app_assoc_s).
  by rewrite substring_skip, substring_prefix.
Qed.

Lemma bracketed_Index pattern seg :
  bracketed pattern seg →
  ∃ prefix suffix,
    pattern = prefix +:+ String "["%char (seg +:+ String "]"%char suffix) ∧
    find_byte "["%char pattern = Some (String.length prefix) ∧
    find_byte "]"%char pattern
    = Some (String.length prefix + 1 + String.length seg).
Proof.
  intros (prefix & suffix & -> & Hopen & Hclose & Hseg).
  exists prefix, suffix. split_and!; [done|by apply find_byte_app|].
  replace (prefix +:+ String "["%char (seg +:+ String "]"%char suffix))
    with ((prefix +:+ String "["%char seg) +:+ String "]"%char suffix)
    by (by rewrite app_assoc_s).
  rewrite find_byte_app.
  - f_equal. rewrite length_app_s. simpl. lia.
  - rewrite has_byte_app, Hclose. simpl. by rewrite Hseg.
Qed.

Lemma Index_bracketed pattern (n m : nat) :
  find_byte "["%char pattern = Some n →
  find_byte "]"%char pattern = Some m →
  n ≤ m →
  ∃ prefix seg suffix,
    pattern = prefix +:+ String "["%char (seg +:+ String "]"%char suffix) ∧
    bracketed pattern seg ∧
    String.length prefix = n ∧ m = n + 1 + String.length seg.
Proof.
  intros (pre & post & Hpat & Hopen & Hn)%find_byte_Some
         (pre2 & post2 & Hpat2 & Hclose & Hm)%find_byte_Some Hle.
  destruct (app_cut pre (String "["%char post) pre2 (String "]"%char post2))
    as (mid & Hpre2 & Hmid); [congruence|lia|].
  destruct mid as [|c seg]; rewrite ?app_nil_s, ?app_cons_s in Hmid;
    [done|].
  injection Hmid as <- ->. subst pre2.
  rewrite has_byte_app in Hclose. apply orb_false_elim in Hclose as [Hc1 Hc2].
  simpl in Hc2.
  exists pre, seg, post2. split_and!; [done| |done|].
  - exists pre, post2. by split_and!.
  - rewrite <- Hm, length_app_s. simpl. lia.
Qed.

Lemma first_range_well_formed pattern :
  is_Some (first_range pattern) ↔ well_formed_range pattern.
Proof.
  unfold first_range. split.
  - destruct (find_byte "["%char pattern) as [n|] eqn:En; cycle 1.
    { unfold Index at 1. rewrite En. cbn. by intros []. }
    destruct (find_byte "]"%char pattern) as [m|] eqn:Em; cycle 1.
    { unfold Index at 2. rewrite Em. cbn.
      rewrite orb_true_r. by intros []. }
    rewrite (Index_Some _ _ _ En), (Index_Some _ _ _ Em).
    destruct (_ || _) eqn:Hguard; [by intros []|].
    apply orb_false_elim in Hguard as [_ Hgt].
    assert (Hle : n ≤ m) by lia.
    destruct (Index_bracketed pattern n m En Em Hle)
      as (prefix & seg & suffix & Hpat & Hbr & Hn & Hm).
    subst n m. rewrite Hpat at 1. rewrite slice_segment.
    destruct (Split seg "-"%char) as [|lo [|hi [|? ?]]] eqn:Es;
      try by intros [].
    destruct (Atoi lo) as [a|] eqn:Ea; [|by intros []].
    destruct (Atoi hi) as [b|] eqn:Eb; [|by intros []].
    destruct (a >? b)%Z eqn:Hab; [by intros []|]. intros _.
    apply Split_two in Es as (-> & Hlo & Hhi).
    exists (lo +:+ String "-"%char hi), a, b.
    split_and!; [done| |lia]. by exists lo, hi.
  - intros (seg & a & b & Hbr & (sa & sb & -> & Hsa & Hsb & Ha & Hb) & Hab).
    destruct (bracketed_Index _ _ Hbr) as (prefix & suffix & Hpat & En & Em).
    rewrite (Index_Some _ _ _ En), (Index_Some _ _ _ Em).
    rewrite Hpat at 1. rewrite slice_segment.
    rewrite (proj2 (Split_two _ _ sa sb)) by done.
    rewrite Ha, Hb.
    rewrite !(proj2 (Z.eqb_neq _ (-1))) by lia.
    rewrite !gtb_false by lia. done.
Qed.

Lemma expandPattern_fuel_guarded fuel pattern :
  first_range pattern = None →
  expandPattern_fuel (S fuel) pattern = Returns [pattern].
Proof.
  unfold first_range. simpl.
  destruct (_ || _); [done|].
  destruct (Split _ _) as [|lo [|hi [|? ?]]]; try done.
  destruct (Atoi lo); [|done]. destruct (Atoi hi); [|done].
  by destruct (_ >? _)%Z.
Qed.

(** C9. A pattern whose first bracketed segment is not a numeric range
    "a-b" with a ≤ b, whether it has no brackets, no single "-", bounds
    that are not numerals, or a > b, is returned as it is, as the only
    identifier. *)
Theorem expandPattern_malformed (pattern : string) :
  ¬ well_formed_range pattern →
  expandPattern pattern = Returns [pattern].
Proof.
  intros Hnot. apply expandPattern_fuel_guarded.
  destruct (first_range pattern) as [ab|] eqn:E; [|done].
  destruct Hnot. apply first_range_well_formed. by exists ab.
Qed.

Lemma expandPattern_malformed_witness :
  ¬ well_formed_range "web-[a-3]" ∧
  expandPattern "web-[a-3]" = Returns ["web-[a-3]"].
Proof.
  assert (Hnot : ¬ well_formed_range "web-[a-3]").
  { rewrite <- first_range_well_formed. vm_compute. by intros []. }
  split; [exact Hnot|]. exact (expandPattern_malformed "web-[a-3]" Hnot).
Defined.

(** ** The fuel is enough *)

Lemma for_range_fuel (n : nat) (i : Z) (body : Z → outcome) expanded :
  (∀ i, body i ≠ OutOfFuel) → for_range n i body expanded ≠ OutOfFuel.
Proof.
  intros Hbody. revert i expanded.
  induction n as [|n IH]; intros i expanded; simpl; [done|].
  specialize (Hbody i). destruct (body i); [apply IH|done..].
Qed.

Lemma expandPattern_fuel_enough (fuel : nat) (pattern : string) :
  String.length pattern < fuel →
  expandPattern_fuel fuel pattern ≠ OutOfFuel.
Proof.
  revert pattern. induction fuel as [|fuel IH]; intros pattern Hlen; [lia|].
  simpl.
  destruct (find_byte "]"%char pattern) as [m|] eqn:Em; cycle 1.
  { unfold Index at 2. rewrite Em. cbn. by rewrite orb_true_r. }
  destruct (_ || _); [done|].
  destruct (Split _ _) as [|lo [|hi [|? ?]]]; try done.
  destruct (Atoi lo); [|done]. destruct (Atoi hi); [|done].
  destruct (_ >? _)%Z; [done|]. destruct (_ =? _)%Z; [done|].
  apply for_range_fuel. intros i.
  set (suffix := slice pattern _ _).
  assert (Hshorter : String.length suffix < fuel).
  { pose proof (length_substring_le
      (Z.to_nat (Index pattern "]"%char + 1))
      (Z.to_nat (len pattern - (Index pattern "]"%char + 1))) pattern) as Hsub.
    fold (slice pattern (Index pattern "]"%char + 1) (len pattern)) in Hsub.
    fold suffix in Hsub.
    rewrite (Index_Some _ _ _ Em) in Hsub.
    apply find_byte_Some in Em as (pre & post & Hpat & _ & _).
    assert (0 < String.length pattern).
    { rewrite Hpat, length_app_s. simpl. lia. }
    lia. }
  specialize (IH suffix Hshorter).
  by destruct (expandPattern_fuel fuel suffix).
Qed.

(** [expandPattern] is a function of the pattern alone: it returns a list,
    or it stands for a call that does not return. *)
Lemma expandPattern_fuel_suffices (pattern : string) :
  expandPattern pattern ≠ OutOfFuel.
Proof. apply expandPattern_fuel_enough. lia. Qed.

(** * Further properties of the lease engine *)

(** ** Counting and holding *)

Lemma COUNT_app cond (l1 l2 : table) :
  COUNT cond (l1 ++ l2) = COUNT cond l1 + COUNT cond l2.
Proof. unfold COUNT. by rewrite List.filter_app, length_app. Qed.

Lemma COUNT_cons cond (r : row) (l : table) :
  COUNT cond (r :: l) = (if cond r then 1 else 0) + COUNT cond l.
Proof. unfold COUNT. cbn. by destruct (cond r). Qed.

Lemma COUNT_ext (c1 c2 : row → bool) (db : table) :
  (∀ r, r ∈ db → c1 r = c2 r) → COUNT c1 db = COUNT c2 db.
Proof.
  induction db as [|r db IH]; intros Heq; [done|].
  rewrite !COUNT_cons, (Heq r) by left.
  rewrite IH; [done|]. intros r' Hr'. apply Heq. by right.
Qed.

Lemma COUNT_none cond (db : table) :
  (∀ r, r ∈ db → cond r = false) → COUNT cond db = 0.
Proof.
  induction db as [|r db IH]; intros Hno; [done|].
  rewrite COUNT_cons, (Hno r) by left.
  rewrite IH; [done|]. intros r' Hr'. apply Hno. by right.
Qed.

Lemma holds_middle (l1 l2 : table) (r : row) c X :
  identifier r = X → locked_by r = Some c → holds (l1 ++ r :: l2) c X.
Proof.
  intros Hid Hl. exists r. split_and!; [|done..].
  apply elem_of_app. right. left.
Qed.

(** Under the UNIQUE constraint the row of an identifier is the row the
    query by identifier finds. *)
Lemma holds_find_by_value db c X :
  schema_unique db → holds db c X →
  ∃ (l1 l2 : table) (r : row),
    db = l1 ++ r :: l2 ∧ find_by_value db X = Some r ∧
    identifier r = X ∧ locked_by r = Some c.
Proof.
  intros Hu (r & Hr & Hid & Hl).
  destruct (find_by_value db X) as [r0|] eqn:Efind; cycle 1.
  { rewrite find_by_value_None in Efind. by destruct (Efind r Hr). }
  pose proof Efind as (l1 & l2 & Hdb & Hid0)%find_by_value_Some.
  assert (r = r0) as ->.
  { eapply (schema_unique_split db l1 r0 l2 r Hu Hdb Hr). congruence. }
  by exists l1, l2, r0.
Qed.

Lemma schema_unique_one_holder db c1 c2 X :
  schema_unique db → holds db c1 X → holds db c2 X → c1 = c2.
Proof.
  intros Hu (l1 & l2 & r & _ & Hf1 & _ & Hl1)%holds_find_by_value
            (k1 & k2 & r' & _ & Hf2 & _ & Hl2)%holds_find_by_value; [|done..].
  congruence.
Qed.

Lemma Renew_held db c v now :
  schema_unique db → holds db c v →
  ∃ (l1 l2 : table) (r : row),
    db = l1 ++ r :: l2 ∧ identifier r = v ∧ locked_by r = Some c ∧
    Renew c v now db
    = (StatusOK NoBody, l1 ++ Row v (Some c) (Some now) :: l2).
Proof.
  intros Hu (l1 & l2 & r & Hdb & Efind & Hid & Hl)%holds_find_by_value;
    [|done].
  exists l1, l2, r. split_and!; [done..|].
  unfold Renew, scan_locked_by. rewrite Efind, Hl.
  rewrite bool_decide_eq_false_2 by (by intros []). f_equal. subst db.
  rewrite (UPDATE_unique _ _ l1 l2 r Hu).
  - unfold identifier_is, locked_by_is.
    rewrite !bool_decide_eq_true_2 by done. cbn.
    unfold set_last_seen. by rewrite Hid, Hl.
  - intros r' [Hr' _]%andb_prop. unfold identifier_is in Hr'.
    apply bool_decide_eq_true in Hr'. congruence.
Qed.

Lemma Release_held db c v :
  schema_unique db → holds db c v →
  ∃ (l1 l2 : table) (r : row),
    db = l1 ++ r :: l2 ∧ identifier r = v ∧ locked_by r = Some c ∧
    Release c v db = (StatusOK ReleasedBody, l1 ++ Row v None None :: l2).
Proof.
  intros Hu (l1 & l2 & r & Hdb & Efind & Hid & Hl)%holds_find_by_value;
    [|done].
  exists l1, l2, r. split_and!; [done..|].
  unfold Release. f_equal. subst db.
  rewrite (UPDATE_unique _ _ l1 l2 r Hu).
  - unfold identifier_is, locked_by_is.
    rewrite !bool_decide_eq_true_2 by done. cbn.
    unfold set_null. by rewrite Hid.
  - intros r' [Hr' _]%andb_prop. unfold identifier_is in Hr'.
    apply bool_decide_eq_true in Hr'. congruence.
Qed.

(** The three ways an allocation ends, on a table of the schema. *)
Lemma Allocate_cases db c now :
  schema_unique db →
  (∃ X, find_by_holder db c = Some X ∧
        Allocate c now db = (StatusOK (AllocateResponse X), db)) ∨
  (find_by_holder db c = None ∧ no_free db ∧
   Allocate c now db = (StatusServiceUnavailable, db)) ∨
  (find_by_holder db c = None ∧
   ∃ (l1 l2 : table) (r : row),
     db = l1 ++ r :: l2 ∧ locked_by r = None ∧ no_free l1 ∧
     Allocate c now db
     = (StatusOK (AllocateResponse (identifier r)),
        l1 ++ Row (identifier r) (Some c) (Some now) :: l2)).
Proof.
  intros Hu. destruct (find_by_holder db c) as [X|] eqn:Efind.
  { left. exists X. split; [done|]. by apply Allocate_held. }
  right. destruct (decide (no_free db)) as [Hnf|Hnf].
  - left. split_and!; [done..|]. by apply Allocate_exhausted.
  - right. split; [done|]. by apply Allocate_claims_first_free.
Qed.

Lemma Allocate_success_holds db c now X db' :
  schema_unique db →
  Allocate c now db = (StatusOK (AllocateResponse X), db') →
  holds db' c X.
Proof.
  intros Hu HA.
  destruct (Allocate_cases db c now Hu)
    as [(X' & Hf & HA')|[(_ & _ & HA')|(_ & l1 & l2 & r & _ & _ & _ & HA')]];
    rewrite HA' in HA; simplify_eq.
  - by apply find_by_holder_holds.
  - by apply holds_middle.
Qed.

Lemma schema_unique_replace (l1 l2 : table) (r r' : row) :
  identifier r' = identifier r →
  schema_unique (l1 ++ r :: l2) → schema_unique (l1 ++ r' :: l2).
Proof.
  unfold schema_unique. intros Hid.
  by rewrite !fmap_app, !fmap_cons, Hid.
Qed.

(** ** The pool is fixed *)

Lemma handle_identifiers e db :
  identifier <$> handle e db = identifier <$> db.
Proof.
  destruct (handle_cases e db) as [->|(o & -> & _)]; [done|].
  apply apply_op_identifiers.
Qed.

Lemma run_identifiers events db :
  identifier <$> run events db = identifier <$> db.
Proof.
  unfold run. revert db.
  induction events as [|e events IH]; intros db; [done|]. cbn.
  by rewrite IH, handle_identifiers.
Qed.

(** X1. No request and no sweep adds, deletes or renames an identifier: the
    [identifier] column, row by row, is the same after any event, after any
    of the four operations, and so after any run. *)
Theorem pool_fixed :
  (∀ e db, identifier <$> handle e db = identifier <$> db) ∧
  (∀ o db, identifier <$> apply_op o db = identifier <$> db) ∧
  (∀ events db, identifier <$> run events db = identifier <$> db).
Proof.
  split_and!;
    [apply handle_identifiers|apply apply_op_identifiers
    |apply run_identifiers].
Qed.

(** ** Allocation and release *)

(** X2. Allocating for a client that holds nothing and then releasing what
    was allocated gives back the table as it was, provided the table has the
    shape the service keeps (unique identifiers, free rows without a
    timestamp) and a slot is free. *)
Theorem Allocate_Release_round_trip (db : table) (c : string) (now : Z) :
  schema_unique db → lease_consistent db →
  (∀ X, ¬ holds db c X) → ¬ no_free db →
  ∃ X, (Allocate c now db).1 = StatusOK (AllocateResponse X) ∧
       Release c X (Allocate c now db).2 = (StatusOK ReleasedBody, db).
Proof.
  intros Hu Hl Hnone%find_by_holder_None Hnf.
  destruct (Allocate_claims_first_free db c now Hu Hnone Hnf)
    as (l1 & l2 & r & Hdb & Hfree & _ & HA).
  exists (identifier r). rewrite HA. split; [done|]. cbn [snd].
  set (r' := Row (identifier r) (Some c) (Some now)).
  assert (Hu' : schema_unique (l1 ++ r' :: l2)).
  { apply (schema_unique_replace l1 l2 r r'); [done|by rewrite <- Hdb]. }
  unfold Release. f_equal.
  rewrite (UPDATE_unique _ _ l1 l2 r' Hu').
  - unfold identifier_is, locked_by_is. cbn.
    rewrite !bool_decide_eq_true_2 by done. cbn.
    subst db. do 2 f_equal. destruct r as [id lb ls]. cbn in *. subst lb.
    unfold set_null. cbn. f_equal. symmetry. apply (Hl (Row id None ls)); [|done].
    apply elem_of_app. right. left.
  - intros r0 [Hr0 _]%andb_prop. unfold identifier_is in Hr0.
    by apply bool_decide_eq_true in Hr0.
Qed.

(** X3. Two allocations in a row for two different clients never answer
    the same identifier. *)
Theorem Allocate_distinct_clients (db : table) (c1 c2 X1 X2 : string)
    (now1 now2 : Z) :
  schema_unique db → c1 ≠ c2 →
  (Allocate c1 now1 db).1 = StatusOK (AllocateResponse X1) →
  (Allocate c2 now2 (Allocate c1 now1 db).2).1
  = StatusOK (AllocateResponse X2) →
  X1 ≠ X2.
Proof.
  intros Hu Hne H1 H2 ->.
  destruct (Allocate c1 now1 db) as [resp1 db1] eqn:E1. cbn in *. subst resp1.
  assert (Hu1 : schema_unique db1).
  { replace db1 with (apply_op (OpAllocate c1 now1) db)
      by (cbn; by rewrite E1).
    by apply apply_op_schema_unique. }
  pose proof (Allocate_success_holds db c1 now1 X2 db1 Hu E1) as Hh1.
  destruct (Allocate c2 now2 db1) as [resp2 db2] eqn:E2. cbn in *. subst resp2.
  destruct (Allocate_cases db1 c2 now2 Hu1)
    as [(X' & Hf & HA)|[(_ & _ & HA)|(_ & l1 & l2 & r & Hdb1 & Hfree & _ & HA)]];
    rewrite HA in E2.
  - injection E2 as HX _. subst X'. apply find_by_holder_holds in Hf.
    by destruct (Hne (schema_unique_one_holder db1 c1 c2 _ Hu1 Hh1 Hf)).
  - discriminate E2.
  - injection E2 as HX _. rewrite <- HX in Hh1.
    destruct (holds_find_by_value _ c1 (identifier r) Hu1 Hh1)
      as (k1 & k2 & x & Hsplit & _ & Hidx & Hlx).
    assert (x = r) as ->.
    { eapply (schema_unique_split _ l1 r l2 x Hu1 Hdb1); [|done].
      rewrite Hsplit. apply elem_of_app. right. left. }
    congruence.
Qed.

Lemma Renew_held_by_other (db : table) (a b X : string) (now : Z) :
  schema_unique db → holds db b X → a ≠ b →
  Renew a X now db = (StatusConflict b a, db).
Proof.
  intros Hu (l1 & l2 & r & _ & Efind & _ & Hl)%holds_find_by_value Hne;
    [|done].
  unfold Renew, scan_locked_by. rewrite Efind, Hl.
  by rewrite bool_decide_eq_true_2 by congruence.
Qed.

(** X4. A liveness probe by a client that is not the holder, for an
    identifier another client holds: [livenessHandler] answers 400 when the
    client id or the identifier of the request is empty, and otherwise 409
    naming the holder; either way the table is unchanged. *)
Theorem livenessHandler_stolen_lease (db : table) (a b X : string) (now : Z) :
  schema_unique db → holds db b X → a ≠ b →
  livenessHandler (POST {| ClientID := a; ReqIdentifier := X |}) now db
  = (if bool_decide (a = "") || bool_decide (X = "")
     then StatusBadRequest "client_id and identifier are required"
     else StatusConflict b a,
     db).
Proof.
  intros Hu Hh Hne.
  destruct (bool_decide (a = "") || bool_decide (X = "")) eqn:Hempty.
  - unfold livenessHandler, POST. cbn. rewrite Hempty.
    by case_bool_decide.
  - apply orb_false_elim in Hempty as [Ha HX].
    apply bool_decide_eq_false in Ha, HX.
    rewrite livenessHandler_POST by done.
    by apply Renew_held_by_other.
Qed.

(** X5. After [allocateHandler] has answered a client an identifier that is
    not the empty string, [livenessHandler] answers that client's probe for
    it 200, whatever the clock readings. *)
Theorem allocateHandler_then_livenessHandler (db : table) (c X : string)
    (now now' : Z) :
  schema_unique db → c ≠ "" → X ≠ "" →
  let allocated := allocateHandler (POST {| alloc_ClientID := c |}) now db in
  allocated.1 = StatusOK (AllocateResponse X) →
  (livenessHandler (POST {| ClientID := c; ReqIdentifier := X |}) now'
     allocated.2).1
  = StatusOK NoBody.
Proof.
  intros Hu Hc HX. cbn zeta. rewrite allocateHandler_POST by done.
  intros HA.
  destruct (Allocate c now db) as [resp db1] eqn:E. cbn in *. subst resp.
  assert (Hu1 : schema_unique db1).
  { replace db1 with (apply_op (OpAllocate c now) db)
      by (cbn; by rewrite E).
    by apply apply_op_schema_unique. }
  pose proof (Allocate_success_holds db c now X db1 Hu E) as Hh.
  rewrite livenessHandler_POST by done.
  destruct (Renew_held db1 c X now' Hu1 Hh) as (? & ? & ? & _ & _ & _ & ->).
  done.
Qed.

(** ** Sweeps *)

Lemma is_stale_set_null threshold (r : row) :
  is_stale threshold (set_null r) = false.
Proof. unfold is_stale, set_null. cbn. done. Qed.

Lemma is_stale_mono t1 t2 (r : row) :
  (t1 ≤ t2)%Z → is_stale t1 r = true → is_stale t2 r = true.
Proof.
  rewrite !is_stale_expired. intros Hle (h & t & ? & ? & ?).
  exists h, t. split_and!; [done..|lia].
Qed.

Lemma UPDATE_UPDATE_set_null c1 c2 (db : table) :
  (∀ r, c2 (set_null r) = false) →
  UPDATE set_null c2 (UPDATE set_null c1 db)
  = UPDATE set_null (λ r, c1 r || c2 r) db.
Proof.
  intros Hnull. unfold UPDATE. rewrite <- list_fmap_compose.
  apply list_fmap_ext. intros _ r _. cbn.
  destruct (c1 r); cbn; [by rewrite Hnull|by destruct (c2 r)].
Qed.

Lemma UPDATE_ext set c1 c2 (db : table) :
  (∀ r, c1 r = c2 r) → UPDATE set c1 db = UPDATE set c2 db.
Proof.
  intros Heq. unfold UPDATE. apply list_fmap_ext. intros _ r _.
  by rewrite Heq.
Qed.

Lemma is_stale_max t1 t2 (r : row) :
  is_stale t1 r || is_stale t2 r = is_stale (Z.max t1 t2) r.
Proof.
  unfold is_stale. destruct (last_seen r) as [t|]; [|done].
  destruct (is_free r); cbn; rewrite ?andb_false_r, ?andb_true_r; [done|].
  destruct (Z.ltb_spec t t1), (Z.ltb_spec t t2), (Z.ltb_spec t (Z.max t1 t2));
    cbn; try done; lia.
Qed.

(** Two sweeps in a row are one sweep at the later of the two instants. *)
Lemma ReclaimStale_twice now1 now2 stale_timeout (db : table) :
  (ReclaimStale now2 stale_timeout
     (ReclaimStale now1 stale_timeout db).2).2
  = (ReclaimStale (Z.max now1 now2) stale_timeout db).2.
Proof.
  unfold ReclaimStale. cbn [snd].
  rewrite UPDATE_UPDATE_set_null by apply is_stale_set_null.
  apply UPDATE_ext. intros r. rewrite is_stale_max. f_equal. lia.
Qed.

(** X6. A sweep that follows another sweep, at the same clock reading or an
    earlier one, frees nothing: it reports 0 and the table stays. *)
Theorem ReclaimStale_again (db : table) (now1 now2 stale_timeout : Z) :
  (now2 ≤ now1)%Z →
  let swept := (ReclaimStale now1 stale_timeout db).2 in
  ReclaimStale now2 stale_timeout swept = (0, swept).
Proof.
  intros Hle. cbn zeta.
  assert (Hnone : ∀ r, r ∈ (ReclaimStale now1 stale_timeout db).2 →
            is_stale (now2 - stale_timeout) r = false).
  { intros r' (r & Hr & ->)%elem_of_UPDATE.
    destruct (is_stale (now1 - stale_timeout) r) eqn:Hs.
    - apply is_stale_set_null.
    - destruct (is_stale (now2 - stale_timeout) r) eqn:Hs2; [|done].
      apply (is_stale_mono _ (now1 - stale_timeout)) in Hs2; [|lia].
      congruence. }
  unfold ReclaimStale at 1. f_equal.
  - unfold RowsAffected. by apply COUNT_none.
  - by apply UPDATE_untouched.
Qed.

Lemma latest_max now t (ticks : list Z) :
  Z.max now (latest t ticks) = latest now (t :: ticks).
Proof.
  unfold latest. cbn. induction ticks as [|u ticks IH]; cbn; [lia|]. lia.
Qed.

(** X7. The ticker loop over any ticks leaves the table one sweep at the
    latest tick would leave: a lease is freed by the loop exactly when it
    is stale at the latest tick. *)
Theorem releaseStaleIdentifiers_latest (db : table) (now : Z)
    (ticks : list Z) (stale_timeout : Z) :
  releaseStaleIdentifiers (now :: ticks) stale_timeout db
  = (ReclaimStale (latest now ticks) stale_timeout db).2.
Proof.
  revert now db. induction ticks as [|t ticks IH]; intros now db; [done|].
  change (releaseStaleIdentifiers (now :: t :: ticks) stale_timeout db)
    with (releaseStaleIdentifiers (t :: ticks) stale_timeout
            (ReclaimStale now stale_timeout db).2).
  rewrite IH, ReclaimStale_twice. by rewrite latest_max.
Qed.

(** X8. A renewal at time T moves the deadline: a later sweep keeps the
    lease when its threshold [now - stale_timeout] is at most T, and frees
    it when the threshold is past T. *)
Theorem Renew_extends_deadline (db : table) (c X : string)
    (T now stale_timeout : Z) :
  schema_unique db → holds db c X →
  let renewed := (Renew c X T db).2 in
  let swept := (ReclaimStale now stale_timeout renewed).2 in
  ((now - stale_timeout ≤ T)%Z → holds swept c X) ∧
  ((T < now - stale_timeout)%Z →
   find_by_value swept X = Some (Row X None None) ∧ ¬ holds swept c X).
Proof.
  intros Hu Hh. cbn zeta.
  destruct (Renew_held db c X T Hu Hh) as (l1 & l2 & r & Hdb & Hid & _ & ->).
  cbn [snd]. set (r' := Row X (Some c) (Some T)).
  assert (Hu' : schema_unique (l1 ++ r' :: l2)).
  { apply (schema_unique_replace l1 l2 r r'); [done|by rewrite <- Hdb]. }
  unfold ReclaimStale. cbn [snd].
  set (k1 := UPDATE set_null (is_stale (now - stale_timeout)) l1).
  set (k2 := UPDATE set_null (is_stale (now - stale_timeout)) l2).
  assert (Hstale : is_stale (now - stale_timeout) r'
                   = (T <? now - stale_timeout)%Z).
  { unfold is_stale, is_free. cbn. by rewrite andb_true_r. }
  assert (Hswept : UPDATE set_null (is_stale (now - stale_timeout))
                     (l1 ++ r' :: l2)
    = k1 ++ (if (T <? now - stale_timeout)%Z then set_null r' else r') :: k2).
  { rewrite UPDATE_app. unfold UPDATE at 2. rewrite fmap_cons.
    by rewrite Hstale. }
  rewrite Hswept. clear Hswept.
  split.
  - intros Hle. rewrite (proj2 (Z.ltb_ge _ _) Hle). by apply holds_middle.
  - intros Hlt. rewrite (proj2 (Z.ltb_lt _ _) Hlt).
    assert (Hk : schema_unique (k1 ++ set_null r' :: k2)).
    { unfold schema_unique, k1, k2.
      rewrite fmap_app, fmap_cons, !UPDATE_identifiers by done.
      unfold schema_unique in Hu'. by rewrite fmap_app, fmap_cons in Hu'. }
    assert (Hfind : find_by_value (k1 ++ set_null r' :: k2) X
                    = Some (Row X None None)).
    { destruct (find_by_value _ X) as [x|] eqn:Ex.
      - pose proof Ex as (m1 & m2 & Hm & Hx)%find_by_value_Some. f_equal.
        eapply (schema_unique_split _ k1 (set_null r') k2 x Hk eq_refl);
          [|done].
        rewrite Hm. apply elem_of_app. right. left.
      - rewrite find_by_value_None in Ex.
        destruct (Ex (set_null r')); [|done]. apply elem_of_app. right. left. }
    split; [done|]. intros Hh'.
    destruct (holds_find_by_value _ c X Hk Hh') as (? & ? & x & _ & Hfx & _ & Hl).
    rewrite Hfind in Hfx. by simplify_eq.
Qed.

(** X9. A first allocation takes exactly one identifier out of the free
    ones, and the release of a held identifier puts exactly one back. *)
Theorem free_count_accounting (db : table) (c X : string) (now : Z) :
  schema_unique db →
  ((∀ Y, ¬ holds db c Y) → ¬ no_free db →
   S (free_count (Allocate c now db).2) = free_count db) ∧
  (holds db c X →
   free_count (Release c X db).2 = S (free_count db)).
Proof.
  intros Hu. split.
  - intros Hnone%find_by_holder_None Hnf.
    destruct (Allocate_claims_first_free db c now Hu Hnone Hnf)
      as (l1 & l2 & r & -> & Hfree & _ & ->). cbn [snd].
    unfold free_count. rewrite !COUNT_app, !COUNT_cons.
    replace (is_free r) with true
      by (symmetry; unfold is_free; by apply bool_decide_eq_true).
    replace (is_free (Row (identifier r) (Some c) (Some now))) with false
      by (symmetry; unfold is_free; by apply bool_decide_eq_false).
    lia.
  - intros Hh.
    destruct (Release_held db c X Hu Hh) as (l1 & l2 & r & -> & _ & Hl & ->).
    cbn [snd]. unfold free_count. rewrite !COUNT_app, !COUNT_cons.
    replace (is_free r) with false
      by (symmetry; unfold is_free; apply bool_decide_eq_false; congruence).
    replace (is_free (Row X None None)) with true
      by (symmetry; unfold is_free; by apply bool_decide_eq_true).
    lia.
Qed.

(** X10. After a release the caller does not hold the identifier, whatever
    the table was, and the same release once more changes nothing. *)
Theorem Release_idempotent (db : table) (c v : string) :
  let released := (Release c v db).2 in
  ¬ holds released c v ∧
  Release c v released = (StatusOK ReleasedBody, released).
Proof.
  cbn zeta. unfold Release. cbn [snd].
  set (cond := λ r, identifier_is v r && locked_by_is c r).
  assert (Hafter : ∀ r', r' ∈ UPDATE set_null cond db → cond r' = false).
  { intros r' (r & Hr & ->)%elem_of_UPDATE.
    destruct (cond r) eqn:Hc; [|done].
    unfold cond, locked_by_is. cbn. by rewrite andb_false_r. }
  split.
  - intros (r & Hr & Hid & Hl). specialize (Hafter r Hr).
    unfold cond, identifier_is, locked_by_is in Hafter.
    by rewrite !bool_decide_eq_true_2 in Hafter.
  - f_equal. by apply UPDATE_untouched.
Qed.

(** * The read-only endpoints *)

Lemma first_row_holder_unique db c (r : row) :
  holder_unique db → r ∈ db → locked_by r = Some c →
  first_row (locked_by_is c) db = Some r.
Proof.
  intros Hu Hr Hl.
  destruct (first_row (locked_by_is c) db) as [r0|] eqn:E; cycle 1.
  { rewrite first_row_None in E. specialize (E r Hr).
    unfold locked_by_is in E. by apply bool_decide_eq_false in E. }
  f_equal. apply first_row_Some in E as (l1 & l2 & -> & Hc & _).
  unfold locked_by_is in Hc. apply bool_decide_eq_true in Hc.
  apply list_elem_of_lookup in Hr as [i Hi].
  assert (Hj : (l1 ++ r0 :: l2) !! length l1 = Some r0)
    by (by rewrite list_lookup_middle).
  assert (i = length l1) as -> by eauto using Hu.
  congruence.
Qed.

(** X11. On a table with the service's invariants, [/client/{client_id}]
    answers 200 with identifier X exactly when the client holds X, 404
    exactly when it holds nothing, and never 500. *)
Theorem clientDetailsHandler_holds (db : table) (c : string) :
  holder_unique db → lease_consistent db → c ≠ "" →
  (∀ X, holds db c X ↔
        ∃ t, clientDetailsHandler c db
             = Encoded {| d_client_id := c; d_identifier := X;
                          d_last_seen := t |}) ∧
  ((∀ X, ¬ holds db c X) ↔ clientDetailsHandler c db = Failed StatusNotFound) ∧
  clientDetailsHandler c db ≠ Failed StatusInternalServerError.
Proof.
  intros Hu Hl Hc. unfold clientDetailsHandler.
  rewrite (bool_decide_eq_false_2 _ Hc).
  destruct (first_row (locked_by_is c) db) as [r0|] eqn:E.
  - pose proof E as (l1 & l2 & Hdb & Hr0 & _)%first_row_Some.
    unfold locked_by_is in Hr0. apply bool_decide_eq_true in Hr0.
    assert (Hin : r0 ∈ db).
    { rewrite Hdb. apply elem_of_app. right. left. }
    destruct (last_seen r0) as [t|] eqn:Ht; cycle 1.
    { apply (Hl r0 Hin) in Ht. congruence. }
    split_and!; [|split; [|done]|done].
    + intros X. split.
      * intros (r & Hr & Hid & Hlr).
        pose proof (first_row_holder_unique db c r Hu Hr Hlr) as E'.
        rewrite E in E'. simplify_eq. by exists t.
      * intros (t' & [= <- _]). by exists r0.
    + intros Hnone. destruct (Hnone (identifier r0)). by exists r0.
  - split_and!; [|split; [done|]|done].
    + intros X. split; [|by intros (t & ?)].
      intros (r & Hr & _ & Hlr). rewrite first_row_None in E.
      specialize (E r Hr). unfold locked_by_is in E.
      by apply bool_decide_eq_false in E.
    + intros _ X (r & Hr & _ & Hlr). rewrite first_row_None in E.
      specialize (E r Hr). unfold locked_by_is in E.
      by apply bool_decide_eq_false in E.
Qed.

(** X12. Whatever the table, the identifier [/client/{client_id}] reports
    for a client is the identifier a repeated [/allocate] of that client
    answers, with the table unchanged. *)
Theorem clientDetailsHandler_Allocate (db : table) (c : string) (d : Details)
    (now : Z) :
  clientDetailsHandler c db = Encoded d →
  allocateHandler (POST {| alloc_ClientID := c |}) now db
  = (StatusOK (AllocateResponse (d_identifier d)), db).
Proof.
  unfold clientDetailsHandler. case_bool_decide as Hc; [done|].
  destruct (first_row (locked_by_is c) db) as [r0|] eqn:E; [|done].
  destruct (last_seen r0); [|done]. intros [= <-]. cbn.
  rewrite allocateHandler_POST by done. apply Allocate_held.
  unfold find_by_holder. by rewrite E.
Qed.

(** X13. [/identifier/{identifier}] on a table with the service's
    invariants: 404 exactly for an identifier outside the pool, 200 naming
    the holder exactly for a leased identifier, and 500 exactly for an
    identifier of the pool that is free (its NULL holder does not scan into
    the Go string). *)
Theorem identifierDetailsHandler_cases (db : table) (v : string) :
  schema_unique db → lease_consistent db → v ≠ "" →
  ((∀ r, r ∈ db → identifier r ≠ v) ↔
   identifierDetailsHandler v db = Failed StatusNotFound) ∧
  (∀ h, holds db h v ↔
        ∃ t, identifierDetailsHandler v db
             = Encoded {| d_client_id := h; d_identifier := v;
                          d_last_seen := t |}) ∧
  ((∃ r, r ∈ db ∧ identifier r = v ∧ locked_by r = None) ↔
   identifierDetailsHandler v db = Failed StatusInternalServerError).
Proof.
  intros Hu Hl Hv. unfold identifierDetailsHandler.
  rewrite (bool_decide_eq_false_2 _ Hv).
  destruct (find_by_value db v) as [r0|] eqn:E.
  - pose proof E as (l1 & l2 & Hdb & Hid0)%find_by_value_Some.
    assert (Hin : r0 ∈ db).
    { rewrite Hdb. apply elem_of_app. right. left. }
    assert (Honly : ∀ r, r ∈ db → identifier r = v → r = r0).
    { intros r Hr Hid.
      eapply (schema_unique_split db l1 r0 l2 r Hu Hdb Hr). congruence. }
    destruct (locked_by r0) as [h0|] eqn:Hl0.
    + destruct (last_seen r0) as [t0|] eqn:Ht0; cycle 1.
      { apply (Hl r0 Hin) in Ht0. congruence. }
      split_and!.
      * split; [|done]. intros Hno. by destruct (Hno r0 Hin).
      * intros h. split.
        -- intros (r & Hr & Hid & Hlr). rewrite (Honly r Hr Hid) in Hlr.
           exists t0. congruence.
        -- intros (t & [= <- _]). by exists r0.
      * split; [|done]. intros (r & Hr & Hid & Hlr).
        rewrite (Honly r Hr Hid) in Hlr. congruence.
    + split_and!.
      * split; [|done]. intros Hno. by destruct (Hno r0 Hin).
      * intros h. split; [|by intros (t & ?)].
        intros (r & Hr & Hid & Hlr). rewrite (Honly r Hr Hid) in Hlr.
        congruence.
      * split; [done|]. intros _. by exists r0.
  - rewrite find_by_value_None in E. split_and!.
    + done.
    + intros h. split; [|by intros (t & ?)].
      intros (r & Hr & Hid & _). by destruct (E r Hr).
    + split; [|done]. intros (r & Hr & Hid & _). by destruct (E r Hr).
Qed.

(** ** Listings and counts *)

Lemma items_of_encode_slice {A} (s : list A) : items_of (encode_slice s) = s.
Proof. by destruct s. Qed.

Lemma encode_slice_null {A} (s : list A) : encode_slice s = JsonNull ↔ s = [].
Proof. by destruct s. Qed.

Lemma COUNT_true (db : table) : COUNT (λ _, true) db = length db.
Proof. induction db as [|r db IH]; [done|]. rewrite COUNT_cons, IH. done. Qed.

Lemma COUNT_locked_free (db : table) :
  COUNT is_locked db + COUNT is_free db = length db.
Proof.
  induction db as [|r db IH]; [done|]. rewrite !COUNT_cons.
  unfold is_locked at 1. cbn [length]. destruct (is_free r); cbn; lia.
Qed.

Lemma COUNT_le (c1 c2 : row → bool) (db : table) :
  (∀ r, r ∈ db → c1 r = true → c2 r = true) → COUNT c1 db ≤ COUNT c2 db.
Proof.
  induction db as [|r db IH]; intros Himp; [done|]. rewrite !COUNT_cons.
  assert (COUNT c1 db ≤ COUNT c2 db).
  { apply IH. intros r' Hr'. apply Himp. by right. }
  specialize (Himp r). destruct (c1 r); [|destruct (c2 r); lia].
  rewrite Himp; [lia|by left|done].
Qed.

Lemma COUNT_fmap_status (db : table) :
  length (List.filter is_Allocated (status_of_row <$> db)) = COUNT is_locked db.
Proof.
  induction db as [|r db IH]; [done|]. rewrite COUNT_cons, fmap_cons. cbn.
  unfold is_locked at 1, is_free.
  destruct (locked_by r); cbn; by rewrite IH.
Qed.

(** X14. [/identifiers] lists every row of the table once, in table order,
    flagged allocated exactly when it has a holder; its numbers of entries
    and of allocated entries are the [total_identifiers] and
    [allocated_identifiers] of [/stats]; and the body is JSON [null], not an
    empty array, exactly when the table is empty. *)
Theorem identifiersHandler_listing (db : table) (now stale_timeout : Z) :
  ∃ body,
    identifiersHandler "GET" db = Encoded body ∧
    is_Identifier <$> items_of body = identifier <$> db ∧
    (∀ s, s ∈ items_of body →
          (is_Allocated s = true ↔ ∃ h, holds db h (is_Identifier s)
                                        ∧ is_LockedBy s = Some h)) ∧
    Z.of_nat (length (items_of body))
    = total_identifiers (statsHandler now stale_timeout db) ∧
    Z.of_nat (length (List.filter is_Allocated (items_of body)))
    = allocated_identifiers (statsHandler now stale_timeout db) ∧
    (body = JsonNull ↔ db = []).
Proof.
  exists (encode_slice (status_of_row <$> db)).
  rewrite items_of_encode_slice. split_and!.
  - done.
  - rewrite <- list_fmap_compose. by apply list_fmap_ext.
  - intros s (r & -> & Hr)%list_elem_of_fmap. cbn.
    rewrite bool_decide_eq_true. split.
    + intros [h Hh]. exists h. split; [by exists r|done].
    + intros (h & _ & Hh). by exists h.
  - cbn. by rewrite COUNT_true, length_fmap.
  - cbn. by rewrite COUNT_fmap_status.
  - rewrite encode_slice_null. split; [by intros ?%fmap_nil_inv|by intros ->].
Qed.

Lemma elem_of_filter_locked (db : table) (r : row) :
  r ∈ List.filter is_locked db ↔ r ∈ db ∧ locked_by r ≠ None.
Proof.
  rewrite !list_elem_of_In, List.filter_In. unfold is_locked, is_free.
  rewrite negb_true_iff, bool_decide_eq_false. done.
Qed.

Lemma elem_of_allocated_items (db : table) (m : AllocatedMapping) :
  m ∈ omap scan_mapping (List.filter is_locked db) ↔
  Row (am_Identifier m) (Some (am_LockedBy m)) (Some (am_LastSeen m)) ∈ db.
Proof.
  rewrite list_elem_of_omap. split.
  - intros (r & [Hr _]%elem_of_filter_locked & Hscan).
    unfold scan_mapping in Hscan.
    destruct r as [id [h|] [t|]]; cbn in Hscan; try discriminate Hscan.
    injection Hscan as <-. exact Hr.
  - intros Hr.
    exists (Row (am_Identifier m) (Some (am_LockedBy m)) (Some (am_LastSeen m))).
    split; [|by destruct m].
    apply elem_of_filter_locked. by split.
Qed.

Lemma length_allocated_items (db : table) :
  lease_consistent db →
  length (omap scan_mapping (List.filter is_locked db)) = COUNT is_locked db.
Proof.
  induction db as [|r db IH]; intros Hl; [done|].
  assert (Hl' : lease_consistent db).
  { intros r' Hr'. apply Hl. by right. }
  specialize (IH Hl'). specialize (Hl r (ltac:(left))).
  rewrite COUNT_cons. cbn [List.filter].
  destruct r as [id [h|] [t|]]; cbn in Hl.
  - replace (is_locked (Row id (Some h) (Some t))) with true by done.
    cbn. by rewrite IH.
  - destruct Hl as [_ Hl]. by specialize (Hl eq_refl).
  - destruct Hl as [Hl _]. by specialize (Hl eq_refl).
  - replace (is_locked (Row id None None)) with false by done.
    cbn. by rewrite IH.
Qed.

(** X15. [/allocated] lists, whatever the table, exactly the rows that have
    both a holder and a timestamp (a held row without a timestamp fails to
    scan and is passed over); on a table where holder and timestamp go
    together, that is one entry for each lease, as many as
    [allocated_identifiers] of [/stats]; and with no lease the body is JSON
    [null]. *)
Theorem allocatedHandler_listing (db : table) (now stale_timeout : Z) :
  ∃ body,
    allocatedHandler "GET" db = Encoded body ∧
    (∀ m, m ∈ items_of body ↔
          Row (am_Identifier m) (Some (am_LockedBy m))
              (Some (am_LastSeen m)) ∈ db) ∧
    (lease_consistent db →
     (∀ h X, holds db h X ↔
             ∃ t, {| am_Identifier := X; am_LockedBy := h;
                     am_LastSeen := t |} ∈ items_of body) ∧
     Z.of_nat (length (items_of body))
     = allocated_identifiers (statsHandler now stale_timeout db) ∧
     (body = JsonNull ↔ ∀ h X, ¬ holds db h X)).
Proof.
  exists (encode_slice (omap scan_mapping (List.filter is_locked db))).
  rewrite items_of_encode_slice.
  split_and!; [done|apply elem_of_allocated_items|].
  intros Hl.
  assert (Hholds : ∀ h X, holds db h X ↔
    ∃ t, {| am_Identifier := X; am_LockedBy := h; am_LastSeen := t |}
         ∈ omap scan_mapping (List.filter is_locked db)).
  { intros h X. split.
    - intros (r & Hr & Hid & Hh).
      destruct (last_seen r) as [t|] eqn:Ht; cycle 1.
      { apply (Hl r Hr) in Ht. congruence. }
      exists t. apply elem_of_allocated_items. cbn.
      destruct r as [id lb ls]. cbn in *. by subst.
    - intros (t & Hm%elem_of_allocated_items). cbn in Hm. by eexists. }
  split_and!; [done| |].
  - cbn. f_equal. by apply length_allocated_items.
  - rewrite encode_slice_null. split.
    + intros Hnil h X (t & Hm)%Hholds. rewrite Hnil in Hm.
      by apply elem_of_nil in Hm.
    + intros Hnone.
      destruct (omap scan_mapping (List.filter is_locked db)) as [|m ms] eqn:E;
        [done|].
      destruct (Hnone (am_LockedBy m) (am_Identifier m)).
      apply Hholds. exists (am_LastSeen m). destruct m. left.
Qed.

(** X16. Every lease [/allocated] lists is the lease
    [/client/{client_id}] reports for its holder, on a table where no two
    rows share a holder and no holder is the empty string. *)
Theorem allocatedHandler_clientDetailsHandler (db : table)
    (body : json_slice AllocatedMapping) (m : AllocatedMapping) :
  holder_unique db → no_empty_holder db →
  allocatedHandler "GET" db = Encoded body → m ∈ items_of body →
  clientDetailsHandler (am_LockedBy m) db
  = Encoded {| d_client_id := am_LockedBy m;
               d_identifier := am_Identifier m;
               d_last_seen := am_LastSeen m |}.
Proof.
  intros Hu Hne [= <-]. rewrite items_of_encode_slice.
  intros Hr%elem_of_allocated_items. unfold clientDetailsHandler.
  rewrite bool_decide_eq_false_2.
  - by rewrite (first_row_holder_unique db _ _ Hu Hr eq_refl).
  - intros Hempty. apply (Hne _ Hr). cbn. by rewrite Hempty.
Qed.

Lemma last_seen_before_is_stale threshold (db : table) (r : row) :
  lease_consistent db → r ∈ db →
  last_seen_before threshold r = is_stale threshold r.
Proof.
  intros Hl Hr. specialize (Hl r Hr). unfold last_seen_before, is_stale, is_free.
  destruct (last_seen r) as [t|]; [|done].
  destruct (locked_by r) as [h|]; cbn; [by rewrite andb_true_r|].
  destruct Hl as [Hl _]. by specialize (Hl eq_refl).
Qed.

(** X17. The numbers of [/stats]: the total is the number of rows, the
    available are the rows without a holder, allocated and available add up
    to the total and neither is negative; when holder and timestamp go
    together the stale are some of the allocated. *)
Theorem statsHandler_counts (db : table) (now stale_timeout : Z) :
  let stats := statsHandler now stale_timeout db in
  total_identifiers stats = Z.of_nat (length db) ∧
  available_identifiers stats = Z.of_nat (free_count db) ∧
  (allocated_identifiers stats + available_identifiers stats
   = total_identifiers stats)%Z ∧
  (0 ≤ allocated_identifiers stats)%Z ∧
  (0 ≤ available_identifiers stats)%Z ∧
  (lease_consistent db →
   (0 ≤ stale_identifiers stats ≤ allocated_identifiers stats)%Z).
Proof.
  cbn. rewrite COUNT_true. pose proof (COUNT_locked_free db) as Hsum.
  unfold free_count. split_and!; try lia.
  intros Hl. split; [lia|]. apply inj_le, COUNT_le.
  intros r Hr. rewrite (last_seen_before_is_stale _ db r Hl Hr).
  unfold is_stale, is_locked. by intros [_ ?]%andb_prop.
Qed.

(** X18. On a table where holder and timestamp go together, the
    [stale_identifiers] of [/stats] is the number of leases a sweep at the
    same clock reading would free, and right after that sweep it is 0. *)
Theorem statsHandler_stale_sweep (db : table) (now stale_timeout : Z) :
  lease_consistent db →
  stale_identifiers (statsHandler now stale_timeout db)
  = Z.of_nat (ReclaimStale now stale_timeout db).1 ∧
  stale_identifiers
    (statsHandler now stale_timeout (ReclaimStale now stale_timeout db).2)
  = 0%Z.
Proof.
  intros Hl. split.
  - cbn. f_equal. unfold RowsAffected. apply COUNT_ext.
    intros r Hr. by apply (last_seen_before_is_stale _ db).
  - cbn. change 0%Z with (Z.of_nat 0). f_equal. apply COUNT_none.
    intros r' (r & Hr & ->)%elem_of_UPDATE.
    destruct (is_stale (now - stale_timeout) r) eqn:Hs; [done|].
    by rewrite (last_seen_before_is_stale _ db r Hl Hr).
Qed.

(** * Seeding and restart *)

Lemma insert_or_ignore_spec (db : table) (id : string) :
  ∃ added,
    insert_or_ignore db id = db ++ added ∧ all_free added ∧
    (∀ x, x ∈ identifier <$> insert_or_ignore db id ↔
          x ∈ identifier <$> db ∨ x = id) ∧
    (schema_unique db → schema_unique (insert_or_ignore db id)).
Proof.
  unfold insert_or_ignore. case_bool_decide as Hin.
  - exists []. rewrite app_nil_r. split_and!; [done|apply Forall_nil_2| |done].
    intros x. split; [by left|]. by intros [?| ->].
  - exists [Row id None None]. split_and!; [done|by apply Forall_singleton| |].
    + intros x. rewrite fmap_app, elem_of_app. cbn.
      by rewrite list_elem_of_singleton.
    + unfold schema_unique. intros Hu. rewrite fmap_app. cbn.
      apply NoDup_app. split_and!; [done| |apply NoDup_singleton].
      intros x Hx ->%list_elem_of_singleton. done.
Qed.

Lemma preload_noop (ids : list string) (db : table) :
  (∀ x, x ∈ ids → x ∈ identifier <$> db) → preload ids db = db.
Proof.
  unfold preload. induction ids as [|id ids IH]; intros Hin; [done|]. cbn.
  assert (Hid : insert_or_ignore db id = db).
  { unfold insert_or_ignore. rewrite bool_decide_eq_true_2; [done|].
    apply Hin. left. }
  rewrite Hid. apply IH. intros x Hx. apply Hin. by right.
Qed.

Lemma preload_spec (ids : list string) (db : table) :
  schema_unique db →
  ∃ added,
    preload ids db = db ++ added ∧ all_free added ∧
    schema_unique (preload ids db) ∧
    (∀ x, x ∈ identifier <$> preload ids db ↔
          x ∈ identifier <$> db ∨ x ∈ ids).
Proof.
  unfold preload. revert db.
  induction ids as [|id ids IH]; intros db Hu; cbn.
  { exists []. rewrite app_nil_r.
    split_and!; [done|apply Forall_nil_2|done|].
    intros x. split; [by left|]. intros [?|Hx]; [done|].
    by apply elem_of_nil in Hx. }
  destruct (insert_or_ignore_spec db id) as (add1 & Heq1 & Hf1 & Hel1 & Hu1).
  destruct (IH (insert_or_ignore db id) (Hu1 Hu))
    as (add2 & Heq2 & Hf2 & Hu2 & Hel2).
  exists (add1 ++ add2). split_and!.
  - by rewrite Heq2, Heq1, app_assoc.
  - by apply Forall_app.
  - done.
  - intros x. rewrite Hel2, Hel1, elem_of_cons. tauto.
Qed.

(** X19. The preload keeps every row that is already in the table as it is,
    leases included, and adds after them, as free rows, the identifiers that
    were missing: afterwards the identifiers of the table are the old ones
    and the preloaded ones, each once. *)
Theorem preload_keeps_and_adds (ids : list string) (db : table) :
  schema_unique db →
  ∃ added,
    preload ids db = db ++ added ∧ all_free added ∧
    schema_unique (preload ids db) ∧
    (∀ x, x ∈ identifier <$> preload ids db ↔
          x ∈ identifier <$> db ∨ x ∈ ids).
Proof.
  intros Hu.
  destruct (preload_spec ids db Hu) as (added & Hkeep & Hfree & Hu' & Hel).
  by exists added.
Qed.

(** X20. Stopping the service after any run and starting it again with the
    same patterns leaves the table as the run left it: the second preload
    inserts nothing and no lease is lost. *)
Theorem restart_keeps_table (patterns : list string) (db0 : table)
    (events : list event) :
  startup patterns None = Some db0 →
  startup patterns (Some (run events db0)) = Some (run events db0).
Proof.
  unfold startup, preloadIdentifiers, initDB. cbn.
  destruct (ExpandIdentifiers patterns) as [ids| |]; [|done..].
  intros [= <-]. f_equal. apply preload_noop. intros x Hx.
  rewrite run_identifiers.
  destruct (preload_spec ids []) as (_ & _ & _ & _ & Hel).
  { apply NoDup_nil_2. }
  apply Hel. by right.
Qed.

(** * Pattern expansion *)

Lemma for_range_ext (n : nat) (i : Z) (body1 body2 : Z → outcome) expanded :
  (∀ j, body1 j = body2 j) →
  for_range n i body1 expanded = for_range n i body2 expanded.
Proof.
  intros Heq. revert i expanded.
  induction n as [|n IH]; intros i expanded; simpl; [done|].
  rewrite Heq. by destruct (body2 i).
Qed.

Lemma for_range_Returns (n : nat) (i : Z) (f : Z → list string) expanded :
  for_range n i (λ j, Returns (f j)) expanded
  = Returns (expanded ++ (j ← Zseq i n; f j)).
Proof.
  revert i expanded.
  induction n as [|n IH]; intros i expanded; simpl.
  - by rewrite app_nil_r.
  - by rewrite IH, app_assoc.
Qed.

Lemma for_range_prefix (n : nat) (i : Z) (body : Z → outcome) expanded ids :
  for_range n i body expanded = Returns ids → ∃ rest, ids = expanded ++ rest.
Proof.
  revert i expanded.
  induction n as [|n IH]; intros i expanded; simpl.
  - intros [= <-]. exists []. by rewrite app_nil_r.
  - destruct (body i) as [l| |]; [|done..].
    intros (rest & ->)%IH. exists (l ++ rest). by rewrite app_assoc.
Qed.

Lemma suffix_shorter (pattern : string) (m : nat) :
  find_byte "]"%char pattern = Some m →
  String.length (slice pattern (Z.of_nat m + 1) (len pattern))
  < String.length pattern.
Proof.
  intros Em.
  pose proof (length_substring_le
    (Z.to_nat (Z.of_nat m + 1))
    (Z.to_nat (len pattern - (Z.of_nat m + 1))) pattern) as Hsub.
  fold (slice pattern (Z.of_nat m + 1) (len pattern)) in Hsub.
  apply find_byte_Some in Em as (pre & post & Hpat & _ & _).
  assert (0 < String.length pattern).
  { rewrite Hpat, length_app_s. simpl. lia. }
  lia.
Qed.

(** The result does not depend on the fuel, once there is enough of it. *)
Lemma expandPattern_fuel_any (n m : nat) (pattern : string) :
  String.length pattern < n → String.length pattern < m →
  expandPattern_fuel n pattern = expandPattern_fuel m pattern.
Proof.
  revert m pattern.
  induction n as [|n IH]; intros [|m] pattern Hn Hm; [lia..|].
  simpl.
  destruct (find_byte "]"%char pattern) as [k|] eqn:Ek; cycle 1.
  { assert (Hi : Index pattern "]"%char = (-1)%Z)
      by (unfold Index; by rewrite Ek).
    rewrite !Hi. by destruct (Index pattern "["%char =? -1)%Z. }
  destruct (_ || _); [done|].
  destruct (Split _ _) as [|lo [|hi [|? ?]]]; try done.
  destruct (Atoi lo); [|done]. destruct (Atoi hi); [|done].
  destruct (_ >? _)%Z; [done|]. destruct (_ =? _)%Z; [done|].
  apply for_range_ext. intros j.
  pose proof (suffix_shorter pattern k Ek) as Hshort.
  rewrite <- (Index_Some _ _ _ Ek) in Hshort.
  by rewrite (IH m _) by lia.
Qed.

Lemma expandPattern_fuel_expandPattern (n : nat) (pattern : string) :
  String.length pattern < n →
  expandPattern_fuel n pattern = expandPattern pattern.
Proof. intros Hn. apply expandPattern_fuel_any; lia. Qed.

Lemma slice_prefix (prefix rest : string) :
  slice (prefix +:+ rest) 0 (Z.of_nat (String.length prefix)) = prefix.
Proof.
  unfold slice. replace (Z.to_nat 0) with 0 by lia.
  replace (Z.to_nat _) with (String.length prefix) by lia.
  apply substring_prefix.
Qed.

Lemma slice_suffix (head suffix : string) :
  slice (head +:+ suffix) (Z.of_nat (String.length head))
        (len (head +:+ suffix))
  = suffix.
Proof.
  unfold slice, len. rewrite length_app_s.
  replace (Z.to_nat (Z.of_nat (String.length head))) with (String.length head)
    by lia.
  replace (Z.to_nat _) with (String.length suffix) by lia.
  by rewrite substring_skip, substring_all.
Qed.

Lemma brackets_Index prefix seg suffix :
  has_byte "["%char prefix = false → has_byte "]"%char prefix = false →
  has_byte "]"%char seg = false →
  let pattern := prefix +:+ String "["%char (seg +:+ String "]"%char suffix) in
  Index pattern "["%char = Z.of_nat (String.length prefix) ∧
  Index pattern "]"%char
  = Z.of_nat (String.length prefix + 1 + String.length seg).
Proof.
  intros Hopen Hclose Hseg pattern. split.
  - apply Index_Some. by apply find_byte_app.
  - apply Index_Some. unfold pattern.
    replace (prefix +:+ String "["%char (seg +:+ String "]"%char suffix))
      with ((prefix +:+ String "["%char seg) +:+ String "]"%char suffix)
      by (by rewrite app_assoc_s).
    rewrite find_byte_app.
    + f_equal. rewrite length_app_s. simpl. lia.
    + rewrite has_byte_app, Hclose. simpl. by rewrite Hseg.
Qed.

Lemma slice_after prefix seg suffix :
  let pattern := prefix +:+ String "["%char (seg +:+ String "]"%char suffix) in
  slice pattern (Z.of_nat (String.length prefix + 1 + String.length seg) + 1)
        (len pattern)
  = suffix.
Proof.
  intros pattern.
  set (head := prefix +:+ String "["%char (seg +:+ String "]"%char EmptyString)).
  assert (Hpat : pattern = head +:+ suffix).
  { unfold pattern, head. rewrite app_assoc_s, app_cons_s. do 2 f_equal.
    by rewrite app_assoc_s. }
  assert (Hlen : (Z.of_nat (String.length prefix + 1 + String.length seg) + 1)%Z
                 = Z.of_nat (String.length head)).
  { unfold head. rewrite length_app_s. simpl. rewrite length_app_s. simpl. lia. }
  rewrite Hlen, Hpat. apply slice_suffix.
Qed.

Lemma expandPattern_fuel_S (fuel : nat) (pattern : string) :
  expandPattern_fuel (S fuel) pattern
  = let start := Index pattern "["%char in
    let end_ := Index pattern "]"%char in
    if (start =? -1)%Z || (end_ =? -1)%Z || (start >? end_)%Z
    then Returns [pattern] else
    let prefix := slice pattern 0 start in
    let rangePart := slice pattern (start + 1) end_ in
    let suffix := slice pattern (end_ + 1) (len pattern) in
    match Split rangePart "-"%char with
    | [lo; hi] =>
        match Atoi lo, Atoi hi with
        | Some startNum, Some endNum =>
            if (startNum >? endNum)%Z then Returns [pattern] else
            if (endNum =? maxInt)%Z then Diverges else
            for_range (Z.to_nat (endNum - startNum + 1)) startNum
              (λ i,
                 match expandPattern_fuel fuel suffix with
                 | Returns expandedSuffixes =>
                     Returns ((λ expSuffix, prefix +:+ fmt_d i +:+ expSuffix)
                                <$> expandedSuffixes)
                 | other => other
                 end)
              []
        | _, _ => Returns [pattern]
        end
    | _ => Returns [pattern]
    end.
Proof. reflexivity. Qed.

(** What [expandPattern] does once the guards have let a range through. *)
Lemma expandPattern_first_range prefix seg suffix lo hi (a b : Z) :
  has_byte "["%char prefix = false → has_byte "]"%char prefix = false →
  has_byte "]"%char seg = false →
  Split seg "-"%char = [lo; hi] → Atoi lo = Some a → Atoi hi = Some b →
  (a ≤ b)%Z →
  expandPattern (prefix +:+ String "["%char (seg +:+ String "]"%char suffix))
  = if (b =? maxInt)%Z then Diverges else
    for_range (Z.to_nat (b - a + 1)) a
      (λ i,
         match expandPattern suffix with
         | Returns expandedSuffixes =>
             Returns ((λ expSuffix, prefix +:+ fmt_d i +:+ expSuffix)
                        <$> expandedSuffixes)
         | other => other
         end) [].
Proof.
  intros Hopen Hclose Hseg Hsplit Ha Hb Hab.
  pose proof (brackets_Index prefix seg suffix Hopen Hclose Hseg) as HI.
  cbn zeta in HI. destruct HI as [Hs He].
  unfold expandPattern. rewrite expandPattern_fuel_S. cbn zeta.
  rewrite Hs, He.
  rewrite !(proj2 (Z.eqb_neq _ (-1))) by lia.
  rewrite gtb_false by lia. cbn [orb].
  rewrite slice_segment.
  rewrite Hsplit, Ha, Hb. rewrite gtb_false by lia.
  destruct (b =? maxInt)%Z; [done|].
  apply for_range_ext. intros j.
  pose proof (slice_after prefix seg suffix) as Hafter. cbn zeta in Hafter.
  rewrite Hafter, slice_prefix.
  rewrite expandPattern_fuel_expandPattern; [done|].
  rewrite length_app_s. simpl. rewrite length_app_s. simpl. lia.
Qed.

Lemma length_Zseq (i : Z) (n : nat) : length (Zseq i n) = n.
Proof. revert i. induction n as [|n IH]; intros i; simpl; [done|]. by rewrite IH. Qed.

Lemma length_bind_const {A B} (f : A → list B) (l : list A) (k : nat) :
  (∀ x, length (f x) = k) → length (x ← l; f x) = length l * k.
Proof.
  intros Hf. induction l as [|x l IH]; [done|].
  cbn. rewrite length_app, Hf, IH. done.
Qed.

(** X21. A pattern whose first bracketed segment is a numeric range "a-b"
    with a ≤ b below the largest [int] expands to, for each number from a to
    b in turn, the text before the bracket, the number in decimal and each
    expansion of the text after the bracket: as many identifiers as the
    range has numbers times the expansions of the rest. *)
Theorem expandPattern_range (prefix seg suffix : string) (a b : Z)
    (expandedSuffixes : list string) :
  has_byte "["%char prefix = false → has_byte "]"%char prefix = false →
  has_byte "]"%char seg = false →
  numeric_range seg a b → (a ≤ b < maxInt)%Z →
  expandPattern suffix = Returns expandedSuffixes →
  expandPattern (prefix +:+ String "["%char (seg +:+ String "]"%char suffix))
  = Returns (range_identifiers prefix a b expandedSuffixes) ∧
  length (range_identifiers prefix a b expandedSuffixes)
  = Z.to_nat (b - a + 1) * length expandedSuffixes.
Proof.
  intros Hopen Hclose Hseg (sa & sb & -> & Hsa & Hsb & Ha & Hb) [Hab Hmax] Hsfx.
  split.
  - rewrite (expandPattern_first_range prefix _ suffix sa sb a b);
      [|done..|by apply Split_two|done|done|done].
    rewrite (proj2 (Z.eqb_neq _ _)) by lia. rewrite Hsfx.
    by rewrite for_range_Returns.
  - unfold range_identifiers. rewrite (length_bind_const _ _ (length expandedSuffixes)).
    + by rewrite length_Zseq.
    + intros i. by rewrite length_fmap.
Qed.

Lemma Atoi_range (s : string) (n : Z) :
  Atoi s = Some n → (minInt ≤ n ≤ maxInt)%Z.
Proof.
  unfold Atoi. destruct s as [|c rest]; [done|].
  set (neg := bool_decide (c = "-"%char)).
  set (digits := if neg || bool_decide (c = "+"%char) then rest
                 else String c rest).
  destruct digits as [|d ds]; [done|].
  destruct (parse_digits (String d ds) 0) as [k|]; [|done].
  cbn [mbind option_bind].
  set (v := if neg then (- k)%Z else k).
  destruct ((minInt <=? v)%Z && (v <=? maxInt)%Z) eqn:Hrange; [|done].
  intros [= <-]. apply andb_prop in Hrange as [? ?]. lia.
Qed.

(** The embedding's outcome for a first range whose upper bound is the
    largest [int]. *)
Lemma expandPattern_maxInt (prefix seg suffix : string) (a : Z) :
  has_byte "["%char prefix = false → has_byte "]"%char prefix = false →
  has_byte "]"%char seg = false →
  numeric_range seg a maxInt →
  expandPattern (prefix +:+ String "["%char (seg +:+ String "]"%char suffix))
  = Diverges.
Proof.
  intros Hopen Hclose Hseg (sa & sb & -> & Hsa & Hsb & Ha & Hb).
  pose proof (Atoi_range sa a Ha) as [_ Hle].
  rewrite (expandPattern_first_range prefix _ suffix sa sb a maxInt);
    [|done..|by apply Split_two|done|done|done].
  done.
Qed.

(** ** The loop and its counter *)

Lemma wrap_int_small (z : Z) : (minInt ≤ z ≤ maxInt)%Z → wrap_int z = z.
Proof.
  unfold wrap_int, minInt, maxInt. intros Hz.
  rewrite Z.mod_small by lia. lia.
Qed.

Lemma wrap_int_range (z : Z) : (minInt ≤ wrap_int z ≤ maxInt)%Z.
Proof.
  unfold wrap_int, minInt, maxInt.
  pose proof (Z.mod_pos_bound (z - -9223372036854775808) (2 ^ 64)) as Hb.
  lia.
Qed.

Lemma loop_never_leaves (n : nat) (body : Z → list string) (s : loop_state) :
  (loop_i s ≤ maxInt)%Z → is_Some (loop_passes n maxInt body s).
Proof.
  revert s. induction n as [|n IH]; intros s Hi; simpl; [by eexists|].
  unfold loop_pass. rewrite (proj2 (Z.leb_le _ _) Hi). cbn.
  apply IH. cbn. apply wrap_int_range.
Qed.

Lemma loop_leaves (n : nat) (endNum : Z) (body : Z → list string)
    (s : loop_state) :
  (minInt ≤ loop_i s)%Z → (endNum < maxInt)%Z →
  Z.to_nat (endNum - loop_i s + 1) = n →
  ∃ s',
    loop_passes n endNum body s = Some s' ∧
    loop_pass endNum body s' = None ∧
    for_range n (loop_i s) (λ i, Returns (body i)) (loop_expanded s)
    = Returns (loop_expanded s').
Proof.
  revert s. induction n as [|n IH]; intros s Hlo Hend Hn; simpl.
  - exists s. split_and!; [done| |done].
    unfold loop_pass. rewrite (proj2 (Z.leb_gt _ _)); [done|lia].
  - unfold loop_pass at 1. rewrite (proj2 (Z.leb_le _ _)) by lia. cbn.
    rewrite wrap_int_small by lia.
    destruct (IH {| loop_i := loop_i s + 1;
                    loop_expanded := loop_expanded s ++ body (loop_i s) |})
      as (s' & Hrun & Hexit & Hfor); cbn; [lia|done|lia|].
    by exists s'.
Qed.

(** X22. The range loop of [expandPattern], [i++] wrapping round as a Go
    [int] does.  When the upper bound is below the largest [int], the loop
    is left after [endNum - startNum + 1] passes (none when that is
    negative) with the identifiers appended in order; when the upper bound
    is the largest [int], the test [i <= endNum] holds after every pass and
    the loop is never left. *)
Theorem expandPattern_loop_wraps (startNum : Z) (body : Z → list string)
    (expanded : list string) :
  (minInt ≤ startNum ≤ maxInt)%Z →
  let start := {| loop_i := startNum; loop_expanded := expanded |} in
  (∀ endNum, (endNum < maxInt)%Z →
     ∃ s,
       loop_passes (Z.to_nat (endNum - startNum + 1)) endNum body start
       = Some s ∧
       loop_pass endNum body s = None ∧
       loop_expanded s
       = expanded ++ (i ← Zseq startNum (Z.to_nat (endNum - startNum + 1));
                      body i)) ∧
  (∀ n, is_Some (loop_passes n maxInt body start)).
Proof.
  intros [Hlo Hhi] start. split.
  - intros endNum Hend.
    destruct (loop_leaves (Z.to_nat (endNum - startNum + 1)) endNum body start)
      as (s & Hrun & Hexit & Hfor); [done..|].
    exists s. split_and!; [done..|].
    cbn in Hfor. rewrite for_range_Returns in Hfor. congruence.
  - intros n. by apply loop_never_leaves.
Qed.

Lemma expandPattern_fuel_nonempty (fuel : nat) (pattern : string) ids :
  expandPattern_fuel fuel pattern = Returns ids → ids ≠ [].
Proof.
  revert pattern ids. induction fuel as [|fuel IH]; intros pattern ids; [done|].
  rewrite expandPattern_fuel_S. cbn zeta.
  destruct (_ || _); [by intros [= <-]|].
  destruct (Split _ _) as [|lo [|hi [|? ?]]]; try by intros [= <-].
  destruct (Atoi lo) as [a|]; [|by intros [= <-]].
  destruct (Atoi hi) as [b|]; [|by intros [= <-]].
  destruct (a >? b)%Z eqn:Hab; [by intros [= <-]|].
  destruct (_ =? _)%Z; [done|].
  destruct (Z.to_nat (b - a + 1)) as [|k] eqn:Hk; [lia|].
  cbn [for_range].
  destruct (expandPattern_fuel fuel _) as [sfx| |] eqn:Esfx; [|done..].
  intros (rest & ->)%for_range_prefix.
  apply IH in Esfx. destruct sfx; [done|]. done.
Qed.

(** X23. When [expandPattern] returns, it returns at least one identifier:
    no pattern expands to nothing. *)
Theorem expandPattern_nonempty (pattern : string) (ids : list string) :
  expandPattern pattern = Returns ids → ids ≠ [].
Proof.
  unfold expandPattern. intros Hret.
  by apply expandPattern_fuel_nonempty in Hret.
Qed.

Lemma ExpandIdentifiers_from_spec (patterns : list string)
    (identifiers ids : list string) :
  ExpandIdentifiers_from identifiers patterns = Returns ids ↔
  ∃ expansions,
    Forall2 (λ pattern expanded, expandPattern pattern = Returns expanded)
            patterns expansions ∧
    ids = identifiers ++ concat expansions.
Proof.
  revert identifiers.
  induction patterns as [|pattern patterns IH]; intros identifiers; simpl.
  - split.
    + intros [= <-]. exists []. split; [constructor|]. by rewrite app_nil_r.
    + intros (expansions & ->%Forall2_nil_inv_l & ->). cbn.
      by rewrite app_nil_r.
  - destruct (expandPattern pattern) as [l| |] eqn:E.
    + rewrite IH. split.
      * intros (expansions & HF & ->). exists (l :: expansions).
        split; [by constructor|]. cbn. by rewrite app_assoc.
      * intros (expansions & HF & ->).
        apply Forall2_cons_inv_l in HF as (l' & rest & Hl & HF & ->).
        exists rest. split; [done|]. cbn. rewrite app_assoc.
        congruence.
    + split; [done|]. intros (expansions & HF & _).
      apply Forall2_cons_inv_l in HF as (l' & rest & Hl & _). congruence.
    + split; [done|]. intros (expansions & HF & _).
      apply Forall2_cons_inv_l in HF as (l' & rest & Hl & _). congruence.
Qed.

(** X24. [ExpandIdentifiers] returns exactly when every pattern's expansion
    returns, and its result is those expansions one after the other, in the
    order of the patterns, duplicates kept. *)
Theorem ExpandIdentifiers_concat (patterns ids : list string) :
  ExpandIdentifiers patterns = Returns ids ↔
  ∃ expansions,
    Forall2 (λ pattern expanded, expandPattern pattern = Returns expanded)
            patterns expansions ∧
    ids = concat expansions.
Proof. unfold ExpandIdentifiers. apply ExpandIdentifiers_from_spec. Qed.

(** * Start-up, refusals and the simulated client *)

(** X25. The first start, on a database file without the table: when the
    patterns expand, the table holds each expanded identifier exactly once,
    every row free and without a timestamp; it is a seeded table of the
    runs above, and it is not empty as soon as there is a pattern. *)
Theorem startup_fresh (patterns : list string) (db : table) :
  startup patterns None = Some db →
  ∃ ids,
    ExpandIdentifiers patterns = Returns ids ∧
    schema_unique db ∧ all_free db ∧
    (∀ x, x ∈ identifier <$> db ↔ x ∈ ids) ∧
    reachable db ∧
    (patterns ≠ [] → db ≠ []).
Proof.
  unfold startup, preloadIdentifiers, initDB. cbn.
  destruct (ExpandIdentifiers patterns) as [ids| |] eqn:E; [|done..].
  intros [= <-]. exists ids.
  destruct (seed_invariant ids) as [Hu Hf].
  destruct (preload_spec ids []) as (_ & _ & _ & _ & Hel).
  { apply NoDup_nil_2. }
  split_and!; [done..| |constructor|].
  - intros x. rewrite Hel. split; [|by right]. intros [Hx|?]; [|done].
    by apply elem_of_nil in Hx.
  - intros Hpat Hnil.
    unfold ExpandIdentifiers in E.
    apply ExpandIdentifiers_from_spec in E as (expansions & HF & ->).
    destruct patterns as [|p ps]; [done|].
    apply Forall2_cons_inv_l in HF as (l & rest & Hl & _ & ->).
    apply expandPattern_fuel_nonempty in Hl.
    destruct l as [|x l]; [done|].
    assert (Hx : x ∈ identifier <$> preload ([] ++ concat ((x :: l) :: rest)) []).
    { apply Hel. right. cbn. left. }
    rewrite Hnil in Hx. by apply elem_of_nil in Hx.
Qed.

Lemma Renew_OK_holds db c v now body :
  (Renew c v now db).1 = StatusOK body → holds db c v.
Proof.
  unfold Renew, scan_locked_by.
  destruct (find_by_value db v) as [r|] eqn:E; [|done].
  destruct (locked_by r) as [h|] eqn:Hl; [|done].
  case_bool_decide as Hh; [done|]. intros _.
  apply find_by_value_Some in E as (l1 & l2 & -> & Hid).
  exists r. split_and!; [|done|].
  - apply elem_of_app. right. left.
  - rewrite Hl. f_equal. by destruct (decide (h = c)).
Qed.

Lemma livenessHandler_refused r now db :
  StatusCode (livenessHandler r now db).1 ≠ 200%Z →
  (livenessHandler r now db).2 = db.
Proof.
  unfold livenessHandler.
  case_bool_decide; [done|]. destruct (Body r) as [req|]; [|done].
  destruct (_ || _); [done|]. intros Hcode. apply Renew_unchanged.
  intros HX. by rewrite HX in Hcode.
Qed.

(** X26. A request that is not answered 200 changes nothing: each of the
    three writing handlers leaves the table as it was whenever its status
    is an error. *)
Theorem refused_requests_change_nothing :
  (∀ r now db, StatusCode (allocateHandler r now db).1 ≠ 200%Z →
               (allocateHandler r now db).2 = db) ∧
  (∀ r now db, StatusCode (livenessHandler r now db).1 ≠ 200%Z →
               (livenessHandler r now db).2 = db) ∧
  (∀ r db, StatusCode (releaseHandler r db).1 ≠ 200%Z →
           (releaseHandler r db).2 = db).
Proof.
  split_and!.
  - intros r now db Hcode. apply allocateHandler_unchanged.
    intros X HX. by rewrite HX in Hcode.
  - apply livenessHandler_refused.
  - intros r db. unfold releaseHandler.
    case_bool_decide; [done|]. by destruct (Body r).
Qed.

(** X27. The preload does not turn the empty identifier away, and the
    liveness endpoint does: when the first free identifier is the empty
    string, [/allocate] leases it to the client, and every liveness probe
    for it is refused with 400, so that lease cannot be renewed. *)
Theorem empty_identifier_unrenewable (db : table) (c : string) (now : Z) :
  schema_unique db → c ≠ "" → (∀ X, ¬ holds db c X) →
  first_free db = Some "" →
  let allocated := allocateHandler (POST {| alloc_ClientID := c |}) now db in
  allocated.1 = StatusOK (AllocateResponse "") ∧
  holds allocated.2 c "" ∧
  ∀ now',
    livenessHandler (POST {| ClientID := c; ReqIdentifier := "" |}) now'
      allocated.2
    = (StatusBadRequest "client_id and identifier are required", allocated.2).
Proof.
  intros Hu Hc Hnone%find_by_holder_None Hfirst. cbn zeta.
  rewrite allocateHandler_POST by done.
  assert (Hnf : ¬ no_free db).
  { rewrite <- first_free_None. congruence. }
  destruct (Allocate_claims_first_free db c now Hu Hnone Hnf)
    as (l1 & l2 & r & Hdb & Hfree & Hl1 & HA).
  assert (Hid : identifier r = "").
  { unfold first_free in Hfirst. rewrite Hdb in Hfirst.
    rewrite first_row_app_r in Hfirst.
    - unfold first_row in Hfirst. cbn in Hfirst. unfold is_free at 1 in Hfirst.
      rewrite bool_decide_eq_true_2 in Hfirst by done. cbn in Hfirst.
      congruence.
    - intros r' Hr'. unfold is_free. apply bool_decide_eq_false.
      by apply (proj1 (Forall_forall _ _) Hl1). }
  rewrite HA, Hid. split_and!; [done|by apply holds_middle|].
  intros now'. unfold livenessHandler, POST. cbn.
  repeat case_bool_decide; done.
Qed.

(** ** The simulated client against the server *)

Lemma livenessHandler_OK_holds (r : Request LivenessRequest) now db body :
  (livenessHandler r now db).1 = StatusOK body →
  ∃ req, Body r = Some req ∧ holds db (ClientID req) (ReqIdentifier req).
Proof.
  unfold livenessHandler. case_bool_decide; [done|].
  destruct (Body r) as [req|]; [|done]. destruct (_ || _); [done|].
  intros Hok%Renew_OK_holds. by exists req.
Qed.

(** X28. A simulated client that registers with a fresh id and is answered
    200 records the identifier the server leased to it; the server's table
    has that lease; and, the identifier not being empty, the client's next
    liveness probe is answered 200 and keeps the client in the client's
    table with the new time. *)
Theorem registerClient_then_sendLiveness (db : table)
    (clients : gmap string Client) (id X : string) (t0 n0 t1 n1 : Z) :
  schema_unique db → id ≠ "" → X ≠ "" →
  let allocated := allocateHandler (POST {| alloc_ClientID := id |}) t0 db in
  allocated.1 = StatusOK (AllocateResponse X) →
  let client := {| c_ID := id; c_Identifier := X;
                   c_LastSeen := (n0 - LivenessInterval)%Z |} in
  let clients1 := registerClient id n0 (Some allocated.1) clients in
  let probed := livenessHandler (liveness_request client) t1 allocated.2 in
  clients1 !! id = Some client ∧
  holds allocated.2 id X ∧
  probed.1 = StatusOK NoBody ∧
  sendLiveness client n1 (Some probed.1) clients1 !! id
  = Some {| c_ID := id; c_Identifier := X; c_LastSeen := n1 |}.
Proof.
  intros Hu Hid HX. cbn zeta. rewrite allocateHandler_POST by done.
  intros HA.
  destruct (Allocate id t0 db) as [resp db1] eqn:E. cbn in HA. subst resp.
  cbn [fst snd].
  assert (Hu1 : schema_unique db1).
  { replace db1 with (apply_op (OpAllocate id t0) db)
      by (cbn; by rewrite E).
    by apply apply_op_schema_unique. }
  pose proof (Allocate_success_holds db id t0 X db1 Hu E) as Hh.
  unfold liveness_request. cbn [c_ID c_Identifier].
  rewrite livenessHandler_POST by done.
  destruct (Renew_held db1 id X t1 Hu1 Hh) as (? & ? & ? & _ & _ & _ & ->).
  cbn [fst]. unfold registerClient, sendLiveness. cbn.
  rewrite !bool_decide_eq_false_2 by (by intros []).
  split_and!; [by rewrite lookup_insert_eq|done|done|].
  by rewrite lookup_insert_eq.
Qed.

(** X29. A simulated client whose recorded lease the server no longer has
    (reclaimed, released or given to another client) is answered an error
    on its liveness probe, whichever error it is; the server's table is
    unchanged and the client drops itself from the client's table. *)
Theorem sendLiveness_lost_lease (db : table) (clients : gmap string Client)
    (client : Client) (now n : Z) :
  ¬ holds db (c_ID client) (c_Identifier client) →
  let probed := livenessHandler (liveness_request client) now db in
  StatusCode probed.1 ≠ 200%Z ∧
  probed.2 = db ∧
  sendLiveness client n (Some probed.1) clients !! c_ID client = None.
Proof.
  intros Hlost. cbn zeta.
  assert (Hcode : StatusCode
    (livenessHandler (liveness_request client) now db).1 ≠ 200%Z).
  { destruct (livenessHandler _ now db).1 as [body| | | | | |] eqn:E;
      try done.
    apply livenessHandler_OK_holds in E as (req & [= <-] & Hh).
    by destruct Hlost. }
  split_and!; [done| |].
  - by apply livenessHandler_refused.
  - unfold sendLiveness. rewrite bool_decide_eq_true_2 by done.
    by rewrite lookup_delete_eq.
Qed.

(** * Worked instances *)

Lemma two_slots_consistent : lease_consistent two_slots.
Proof.
  intros r Hr. unfold two_slots in Hr.
  apply elem_of_cons in Hr as [->|Hr]; [done|].
  apply list_elem_of_singleton in Hr as ->. done.
Qed.

Lemma two_slots_holder_unique : holder_unique two_slots.
Proof.
  intros [|[|i]] [|[|j]] ri rj h Hi Hj Hhi Hhj; cbn in *; simplify_eq; done.
Qed.

Lemma two_slots_no_empty_holder : no_empty_holder two_slots.
Proof.
  intros r Hr. unfold two_slots in Hr.
  apply elem_of_cons in Hr as [->|Hr]; [done|].
  apply list_elem_of_singleton in Hr as ->. done.
Qed.

Lemma two_slots_vm_a : holds two_slots "vm-a" "id-1".
Proof. apply find_by_holder_holds. reflexivity. Qed.

Lemma two_slots_vm_b : ∀ X, ¬ holds two_slots "vm-b" X.
Proof. apply find_by_holder_None. reflexivity. Qed.

Lemma two_slots_not_exhausted : ¬ no_free two_slots.
Proof. rewrite <- first_free_None. by vm_compute. Qed.

Lemma Allocate_Release_round_trip_witness :
  ∃ X, (Allocate "vm-b" 7 two_slots).1 = StatusOK (AllocateResponse X) ∧
       Release "vm-b" X (Allocate "vm-b" 7 two_slots).2
       = (StatusOK ReleasedBody, two_slots).
Proof.
  exact (Allocate_Release_round_trip two_slots "vm-b" 7 two_slots_schema
           two_slots_consistent two_slots_vm_b two_slots_not_exhausted).
Defined.

Lemma Allocate_distinct_clients_witness : "id-1" ≠ "id-2".
Proof.
  apply (Allocate_distinct_clients (preload ["id-1"; "id-2"] [])
           "vm-a" "vm-b" "id-1" "id-2" 0 1).
  - apply seed_invariant.
  - done.
  - reflexivity.
  - reflexivity.
Defined.

Lemma livenessHandler_stolen_lease_witness :
  livenessHandler (POST {| ClientID := "vm-b"; ReqIdentifier := "id-1" |}) 9
    two_slots
  = (StatusConflict "vm-a" "vm-b", two_slots).
Proof.
  apply (livenessHandler_stolen_lease two_slots "vm-b" "vm-a" "id-1" 9).
  - exact two_slots_schema.
  - exact two_slots_vm_a.
  - done.
Defined.

Lemma allocateHandler_then_livenessHandler_witness :
  (livenessHandler (POST {| ClientID := "vm-b"; ReqIdentifier := "id-2" |}) 9
     (allocateHandler (POST {| alloc_ClientID := "vm-b" |}) 7 two_slots).2).1
  = StatusOK NoBody.
Proof.
  apply (allocateHandler_then_livenessHandler two_slots "vm-b" "id-2" 7 9).
  - exact two_slots_schema.
  - done.
  - done.
  - reflexivity.
Defined.

Lemma ReclaimStale_again_witness :
  ReclaimStale 12 10 (ReclaimStale 16 10 two_slots).2
  = (0, (ReclaimStale 16 10 two_slots).2).
Proof. apply (ReclaimStale_again two_slots 16 12 10). lia. Defined.

Lemma Renew_extends_deadline_witness :
  holds (ReclaimStale 14 10 (Renew "vm-a" "id-1" 5 two_slots).2).2
        "vm-a" "id-1" ∧
  ¬ holds (ReclaimStale 16 10 (Renew "vm-a" "id-1" 5 two_slots).2).2
          "vm-a" "id-1".
Proof.
  split.
  - apply (Renew_extends_deadline two_slots "vm-a" "id-1" 5 14 10
             two_slots_schema two_slots_vm_a). lia.
  - apply (Renew_extends_deadline two_slots "vm-a" "id-1" 5 16 10
             two_slots_schema two_slots_vm_a). lia.
Defined.

Lemma free_count_accounting_witness :
  S (free_count (Allocate "vm-b" 7 two_slots).2) = free_count two_slots ∧
  free_count (Release "vm-a" "id-1" two_slots).2 = S (free_count two_slots).
Proof.
  destruct (free_count_accounting two_slots "vm-b" "id-2" 7 two_slots_schema)
    as [Halloc _].
  destruct (free_count_accounting two_slots "vm-a" "id-1" 7 two_slots_schema)
    as [_ Hrel].
  split.
  - exact (Halloc two_slots_vm_b two_slots_not_exhausted).
  - exact (Hrel two_slots_vm_a).
Defined.

Lemma clientDetailsHandler_holds_witness :
  clientDetailsHandler "vm-b" two_slots = Failed StatusNotFound ∧
  clientDetailsHandler "vm-a" two_slots ≠ Failed StatusInternalServerError.
Proof.
  destruct (clientDetailsHandler_holds two_slots "vm-b" two_slots_holder_unique
              two_slots_consistent) as (_ & Hnone & _); [done|].
  destruct (clientDetailsHandler_holds two_slots "vm-a" two_slots_holder_unique
              two_slots_consistent) as (_ & _ & Hnot); [done|].
  split; [by apply Hnone, two_slots_vm_b|exact Hnot].
Defined.

Lemma clientDetailsHandler_Allocate_witness :
  allocateHandler (POST {| alloc_ClientID := "vm-a" |}) 7 two_slots
  = (StatusOK (AllocateResponse "id-1"), two_slots).
Proof.
  apply (clientDetailsHandler_Allocate two_slots "vm-a"
           {| d_client_id := "vm-a"; d_identifier := "id-1";
              d_last_seen := 0 |} 7).
  reflexivity.
Defined.

Lemma identifierDetailsHandler_cases_witness :
  identifierDetailsHandler "id-2" two_slots = Failed StatusInternalServerError.
Proof.
  destruct (identifierDetailsHandler_cases two_slots "id-2" two_slots_schema
              two_slots_consistent) as (_ & _ & Hfree); [done|].
  apply Hfree. exists (Row "id-2" None None).
  split_and!; [|done..]. unfold two_slots. right. left.
Defined.

Lemma allocatedHandler_clientDetailsHandler_witness :
  clientDetailsHandler "vm-a" two_slots
  = Encoded {| d_client_id := "vm-a"; d_identifier := "id-1";
               d_last_seen := 0 |}.
Proof.
  apply (allocatedHandler_clientDetailsHandler two_slots
           (JsonArray [{| am_Identifier := "id-1"; am_LockedBy := "vm-a";
                          am_LastSeen := 0 |}])
           {| am_Identifier := "id-1"; am_LockedBy := "vm-a";
              am_LastSeen := 0 |}
           two_slots_holder_unique two_slots_no_empty_holder).
  - reflexivity.
  - left.
Defined.

Lemma statsHandler_stale_sweep_witness :
  stale_identifiers (statsHandler 16 10 two_slots)
  = Z.of_nat (ReclaimStale 16 10 two_slots).1.
Proof.
  exact (proj1 (statsHandler_stale_sweep two_slots 16 10 two_slots_consistent)).
Defined.

Lemma preload_keeps_and_adds_witness :
  ∃ added,
    preload ["id-2"; "id-3"] two_slots = two_slots ++ added ∧ all_free added ∧
    schema_unique (preload ["id-2"; "id-3"] two_slots) ∧
    (∀ x, x ∈ identifier <$> preload ["id-2"; "id-3"] two_slots ↔
          x ∈ identifier <$> two_slots ∨ x ∈ ["id-2"; "id-3"]).
Proof.
  exact (preload_keeps_and_adds ["id-2"; "id-3"] two_slots two_slots_schema).
Defined.

Lemma restart_keeps_table_witness :
  let db0 := preload ["id-1"; "id-2"] [] in
  let events := [AllocateReq (POST {| alloc_ClientID := "vm-a" |}) 0] in
  startup ["id-[1-2]"] (Some (run events db0)) = Some (run events db0).
Proof.
  apply (restart_keeps_table ["id-[1-2]"]). reflexivity.
Defined.

Lemma numeric_range_1_3 : numeric_range "1-3" 1 3.
Proof. exists "1", "3". by split_and!. Qed.

Lemma expandPattern_range_witness :
  expandPattern "web-[1-3]x" = Returns ["web-1x"; "web-2x"; "web-3x"].
Proof.
  refine (proj1 (expandPattern_range "web-" "1-3" "x" 1 3 ["x"]
                   eq_refl eq_refl eq_refl numeric_range_1_3 _ eq_refl)).
  unfold maxInt. lia.
Defined.

(** One pass from the largest [int]: the counter comes out as the
    smallest, and the test holds again. *)
Example loop_pass_wraps :
  loop_i <$> loop_pass maxInt (λ i, [fmt_d i])
               {| loop_i := maxInt; loop_expanded := [] |}
  = Some minInt.
Proof. reflexivity. Qed.

Lemma expandPattern_loop_wraps_witness :
  is_Some (loop_passes 3 maxInt (λ i, [fmt_d i])
             {| loop_i := maxInt; loop_expanded := [] |}).
Proof.
  apply (expandPattern_loop_wraps maxInt (λ i, [fmt_d i]) []).
  unfold minInt, maxInt. lia.
Defined.

Lemma expandPattern_nonempty_witness :
  ["web-1x"; "web-2x"; "web-3x"] ≠ [].
Proof. apply (expandPattern_nonempty "web-[1-3]x"). reflexivity. Defined.

Lemma startup_fresh_witness :
  ∃ ids,
    ExpandIdentifiers ["id-[1-2]"; "id-2"] = Returns ids ∧
    schema_unique (preload ["id-1"; "id-2"] []) ∧
    all_free (preload ["id-1"; "id-2"] []) ∧
    (∀ x, x ∈ identifier <$> preload ["id-1"; "id-2"] [] ↔ x ∈ ids) ∧
    reachable (preload ["id-1"; "id-2"] []) ∧
    (["id-[1-2]"; "id-2"] ≠ [] → preload ["id-1"; "id-2"] [] ≠ []).
Proof.
  apply (startup_fresh ["id-[1-2]"; "id-2"]). reflexivity.
Defined.

Lemma empty_identifier_unrenewable_witness :
  let db := preload [""; "id-1"] [] in
  let allocated := allocateHandler (POST {| alloc_ClientID := "vm-a" |}) 0 db in
  allocated.1 = StatusOK (AllocateResponse "") ∧
  holds allocated.2 "vm-a" "" ∧
  ∀ now',
    livenessHandler (POST {| ClientID := "vm-a"; ReqIdentifier := "" |}) now'
      allocated.2
    = (StatusBadRequest "client_id and identifier are required", allocated.2).
Proof.
  apply (empty_identifier_unrenewable (preload [""; "id-1"] []) "vm-a" 0).
  - apply seed_invariant.
  - done.
  - apply find_by_holder_None. reflexivity.
  - reflexivity.
Defined.

Lemma registerClient_then_sendLiveness_witness :
  let db := preload ["id-1"] [] in
  let allocated := allocateHandler (POST {| alloc_ClientID := "vm-a" |}) 0 db in
  let client := {| c_ID := "vm-a"; c_Identifier := "id-1";
                   c_LastSeen := (3 - LivenessInterval)%Z |} in
  let clients1 := registerClient "vm-a" 3 (Some allocated.1) ∅ in
  let probed := livenessHandler (liveness_request client) 5 allocated.2 in
  clients1 !! "vm-a" = Some client ∧
  holds allocated.2 "vm-a" "id-1" ∧
  probed.1 = StatusOK NoBody ∧
  sendLiveness client 8 (Some probed.1) clients1 !! "vm-a"
  = Some {| c_ID := "vm-a"; c_Identifier := "id-1"; c_LastSeen := 8 |}.
Proof.
  apply (registerClient_then_sendLiveness (preload ["id-1"] []) ∅
           "vm-a" "id-1" 0 3 5 8).
  - apply seed_invariant.
  - done.
  - done.
  - reflexivity.
Defined.

Lemma sendLiveness_lost_lease_witness :
  let db := [Row "id-1" None None] in
  let client := {| c_ID := "vm-a"; c_Identifier := "id-1"; c_LastSeen := 5 |} in
  let probed := livenessHandler (liveness_request client) 17 db in
  StatusCode probed.1 ≠ 200%Z ∧
  probed.2 = db ∧
  sendLiveness client 18 (Some probed.1) {[ "vm-a" := client ]} !! "vm-a"
  = None.
Proof.
  apply (sendLiveness_lost_lease [Row "id-1" None None]
           {[ "vm-a" := {| c_ID := "vm-a"; c_Identifier := "id-1";
                           c_LastSeen := 5 |} ]}
           {| c_ID := "vm-a"; c_Identifier := "id-1"; c_LastSeen := 5 |}
           17 18).
  apply (proj1 (find_by_holder_None [Row "id-1" None None] "vm-a")).
  reflexivity.
Defined.

Lemma refused_requests_change_nothing_witness :
  (allocateHandler (POST {| alloc_ClientID := "" |}) 7 two_slots).2 = two_slots.
Proof.
  apply (proj1 refused_requests_change_nothing). by vm_compute.
Defined.
